(** * Terminal completion service

    A shallow embedding of
    [src/vs/workbench/contrib/terminalContrib/suggest/browser/terminalCompletionService.ts]:
    the provider registry, the selection of the providers to request,
    the collection of their completions and the resolution of file and
    folder completions.

    Conventions of the embedding.
    - A JavaScript string is a [string]; its length counts characters.
    - A [Map] is an association list in insertion order ([JsMap]).
    - Objects that the code mutates live in a store and are named by
      their index: the registered providers ([ProviderStore]) and the
      completion items handed out by providers ([Heap]). A URI, which is
      only compared, carries its reference ([URI.ref]).
    - A promise is given by the state it ends in ([Promise]); the order
      in which the promises of one request end is a parameter
      ([schedule]). *)

From Stdlib Require Import ZArith Ascii String List Bool Lia.
From stdpp Require Import base list strings.

Set Default Proof Using "Type".

(* ================================================================== *)
(** * Definitions *)
(* ================================================================== *)

(** ** JavaScript string methods used by the service *)

Module JsString.

(** [s.substring(0, e)]: a negative end counts as 0, an end past the
    string as its length. *)
Definition substring0 (s : string) (e : Z) : string :=
  String.substring 0 (Z.to_nat e) s.

(** The string without its first [n] characters. *)
Fixpoint drop (n : nat) (s : string) : string :=
  match n, s with
  | O, _ => s
  | S _, EmptyString => EmptyString
  | S n', String _ s' => drop n' s'
  end.

(** [s.startsWith(search)] *)
Fixpoint startsWith (s search : string) {struct search} : bool :=
  match search, s with
  | EmptyString, _ => true
  | String _ _, EmptyString => false
  | String a search', String b s' =>
      if decide (a = b) then startsWith s' search' else false
  end.

(** [s.endsWith(search)] *)
Definition endsWith (s search : string) : bool :=
  (String.length search <=? String.length s)%nat
  && String.eqb (drop (String.length s - String.length search) s) search.

(** [s.includes(search)] *)
Fixpoint includes (s search : string) : bool :=
  startsWith s search
  || match s with
     | EmptyString => false
     | String _ s' => includes s' search
     end.

(** [s.replace(pattern, '')] for a string pattern: the first occurrence
    of [pattern] is removed. *)
Fixpoint replaceFirst (s pattern : string) : string :=
  if startsWith s pattern then drop (String.length pattern) s
  else match s with
       | EmptyString => EmptyString
       | String c s' => String c (replaceFirst s' pattern)
       end.

(** The scan of [s.split(sep)] for a non-empty [sep]: [cur] is the
    segment read so far, [skip] the number of characters of a separator
    just matched that are still to be passed over. *)
Fixpoint splitFrom (sep : string) (skip : nat) (cur s : string) : list string :=
  match s with
  | EmptyString => [cur]
  | String c s' =>
      match skip with
      | S k => splitFrom sep k cur s'
      | O =>
          if startsWith s sep
          then cur :: splitFrom sep (String.length sep - 1) EmptyString s'
          else splitFrom sep 0 (cur +:+ String c EmptyString) s'
      end
  end.

(** [s.split(sep)]; an empty separator splits between all characters. *)
Definition split (s sep : string) : list string :=
  match sep with
  | EmptyString =>
      map (fun c => String c EmptyString) (String.list_ascii_of_string s)
  | String _ _ => splitFrom sep 0 EmptyString s
  end.

(** [parts.join(sep)] *)
Definition join (parts : list string) (sep : string) : string :=
  String.concat sep parts.

End JsString.

(** ** JavaScript [Map]

    Entries are kept in insertion order, which is the order of iteration.
    Keys are compared with [=]: for strings that is equality of the
    text; an object used as key carries its reference (see [URI]). *)

Module JsMap.

Definition t (K V : Type) : Type := list (K * V).

Section ops.
Context {K V : Type} `{EqDecision K}.

Definition empty : t K V := [].

(** [m.get(k)] *)
Fixpoint get (k : K) (m : t K V) : option V :=
  match m with
  | [] => None
  | (k', v) :: m' => if decide (k' = k) then Some v else get k m'
  end.

(** [m.set(k, v)]: an existing key keeps its place. *)
Fixpoint set (k : K) (v : V) (m : t K V) : t K V :=
  match m with
  | [] => [(k, v)]
  | (k', v') :: m' =>
      if decide (k' = k) then (k', v) :: m' else (k', v') :: set k v m'
  end.

(** [m.delete(k)] *)
Fixpoint delete (k : K) (m : t K V) : t K V :=
  match m with
  | [] => []
  | (k', v') :: m' =>
      if decide (k' = k) then delete k m' else (k', v') :: delete k m'
  end.

(** [m.size] *)
Definition size (m : t K V) : nat := length m.

(** [m.keys()], [m.values()] *)
Definition keys (m : t K V) : list K := map fst m.
Definition values (m : t K V) : list V := map snd m.

(** What every map built by [set] and [delete] satisfies. *)
Definition wf (m : t K V) : Prop := NoDup (keys m).
End ops.

End JsMap.

(** ** Data model *)

Inductive TerminalCompletionItemKind : Type :=
  | File
  | Folder
  | Flag
  | Method
  | Argument.

(** Modelled from the spec: [ISimpleCompletion], which
    [ITerminalCompletion] extends (line 26), is not part of this file. A
    completion item has a "display label (text), optional
    detail/description text, optional kind tag", a "replacement range
    expressed as (startOffset, length) into the prompt buffer" and
    "optional file/folder flags". [kind] is the field of line 27. An
    optional field is an [option]. *)
Module Completion.
Record t : Type := mk {
  label : string;
  detail : option string;
  kind : option TerminalCompletionItemKind;
  isDirectory : option bool;
  isFile : option bool;
  replacementIndex : Z;
  replacementLength : Z
}.

(** [completion.detail = d] *)
Definition setDetail (d : string) (c : t) : t :=
  mk (label c) (Some d) (kind c) (isDirectory c) (isFile c)
     (replacementIndex c) (replacementLength c).
End Completion.

(** Modelled from the spec: the class [URI] of [base/common/uri] is not
    part of this file. A location has a scheme and a path, and a "full
    path" ([fsPath]) for the file system. A URI is an object: [ref] is
    its reference, which is what a [Map] compares when a URI is a key.
    What the constructor makes of the components it is given is left
    open ([URI.Impl]). *)
Module URI.
Record t : Type := mk {
  ref : nat;
  scheme : string;
  path : string;
  fsPath : string
}.

#[global] Instance eq_dec : EqDecision t.
Proof. solve_decision. Defined.

(** The two computations of the URI class that the service relies on:
    the path stored for a scheme and a given path, and the file system
    path of a scheme and a stored path. *)
Class Impl : Type := {
  referenceResolution : string -> string -> string;
  uriToFsPath : string -> string -> string
}.

(** [URI.from({ scheme, path })]: a new object, whose reference [fresh]
    no other object has. *)
Definition from `{Impl} (fresh : nat) (scheme path : string) : t :=
  let path' := referenceResolution scheme path in
  mk fresh scheme path' (uriToFsPath scheme path').

(** [URI.revive(u)]: the URI object for [u], nothing for [undefined]. *)
Definition revive (u : option t) : option t := u.
End URI.

(** Modelled from the spec: [Schemas.file] of [base/common/network], the
    scheme of what "belongs to a local-file-like source". *)
Definition Schemas_file : string := "file".

Module ResourceRequestConfig.
Record t : Type := mk {
  filesRequested : option bool;
  foldersRequested : option bool;
  cwd : option URI.t;
  pathSeparator : string
}.
End ResourceRequestConfig.

Abbreviation TerminalResourceRequestConfig := ResourceRequestConfig.t.

(** A reference to a completion item made by a provider, and the store
    holding those items. *)
Abbreviation ItemRef := (nat) (only parsing).
Abbreviation Heap := (list Completion.t) (only parsing).

(** What a provider resolves to, when it is not [undefined]: an array of
    items, or a [TerminalCompletionList] with its two optional fields. *)
Inductive Completions : Type :=
  | CompletionArray (items : list ItemRef)
  | TerminalCompletionList
      (items : option (list ItemRef))
      (resourceRequestConfig : option TerminalResourceRequestConfig).

(** The state in which a promise ends. *)
Inductive Promise (A : Type) : Type :=
  | Pending
  | Fulfilled (value : A)
  | Rejected.
Arguments Pending {A}.
Arguments Fulfilled {A} value.
Arguments Rejected {A}.

(** Modelled from the spec: [TerminalShellType] of [platform/terminal],
    the "shell-type tags", which are compared for equality only. *)
Abbreviation TerminalShellType := (string) (only parsing).

(** Modelled from the spec: [CancellationToken] of
    [base/common/cancellation], "a cancellation token/flag" handed to
    every provider. *)
Abbreviation CancellationToken := (bool) (only parsing).

(** [ITerminalCompletionProvider]. A provider that throws is one whose
    promise is rejected. *)
Module Provider.
Record t : Type := mk {
  id : string;
  shellTypes : option (list TerminalShellType);
  provideCompletions :
    string -> Z -> CancellationToken -> Promise (option Completions);
  triggerCharacters : option (list string);
  isBuiltin : option bool
}.

(** [provider.triggerCharacters = cs; provider.id = i] *)
Definition stamp (cs : list string) (i : string) (p : t) : t :=
  mk i (shellTypes p) (provideCompletions p) (Some cs) (isBuiltin p).
End Provider.

Abbreviation ITerminalCompletionProvider := Provider.t.

Abbreviation ProviderRef := (nat) (only parsing).
Abbreviation ProviderStore := (list ITerminalCompletionProvider) (only parsing).

(** Modelled from the spec: [IFileStat] of [platform/files], which
    "carries children: sequence of {resource: locationRef, isDirectory:
    bool, isFile: bool} or is absent/childless on resolution failure". *)
#[warnings="-register-all"]
Inductive IFileStat : Type :=
  | FileStat (resource : URI.t) (isDirectory isFile : bool)
             (children : option (list IFileStat)).

Module Stat.
Definition resource (s : IFileStat) : URI.t :=
  match s with FileStat r _ _ _ => r end.
Definition isDirectory (s : IFileStat) : bool :=
  match s with FileStat _ d _ _ => d end.
Definition isFile (s : IFileStat) : bool :=
  match s with FileStat _ _ f _ => f end.
Definition children (s : IFileStat) : option (list IFileStat) :=
  match s with FileStat _ _ _ c => c end.
End Stat.

(** Modelled from the spec: [IFileService] of [platform/files], which
    "exposes resolve(locationRef, {resolveSingleChildDescendants: true})
    -> FileStat | undefined". *)
Record IFileService : Type := {
  resolve : URI.t -> option IFileStat
}.

(** Modelled from the spec: [IConfigurationService], which "exposes
    getValue(key) -> value for two keys: an enable extension completions
    boolean, and a dev mode boolean"; they are read at lines 129 and 165
    as conditions. *)
Record IConfigurationService : Type := {
  enableExtensionCompletions : bool;
  devMode : bool
}.

(** ** The service *)

Abbreviation Registry := (JsMap.t string (JsMap.t string ProviderRef)) (only parsing).

Record TerminalCompletionService : Type := mkService {
  _providers : Registry;
  _configurationService : IConfigurationService;
  _fileService : IFileService
}.

Definition setProviders (r : Registry) (svc : TerminalCompletionService) :
  TerminalCompletionService :=
  mkService r (_configurationService svc) (_fileService svc).

(** [_providersGenerator]: the providers of every extension, map by map. *)
Definition _providersGenerator (r : Registry) : list ProviderRef :=
  flat_map (fun extMap => JsMap.values extMap) (JsMap.values r).

(** The registered providers with the key each is stored under. *)
Definition entries (r : Registry) : list ((string * string) * ProviderRef) :=
  flat_map (fun '(ext, extMap) => map (fun '(i, p) => ((ext, i), p)) extMap) r.

(** [get providers]: the objects that the generator yields. *)
Definition providers (store : ProviderStore) (svc : TerminalCompletionService) :
  list ITerminalCompletionProvider :=
  omap (fun p => store !! p) (_providersGenerator (_providers svc)).

(** Modelled from the spec: [toDisposable] of [base/common/lifecycle]
    "returns a handle whose invocation removes the entry", and "calling
    the handle more than once is safe (idempotent no-op after first
    removal)". The handle holds the function it was given, which
    captures the two keys (lines 113-121), and whether it has been
    invoked: the function runs at the first invocation only. *)
Record IDisposable : Type := mkDisposable {
  disposeExtensionIdentifier : string;
  disposeId : string;
  isDisposed : bool
}.

(** The handle as [toDisposable] returns it: not invoked yet. *)
Definition toDisposable (extensionIdentifier id : string) : IDisposable :=
  mkDisposable extensionIdentifier id false.

(** Lines 105-109 and 112, on the registry. The sub-map of the extension
    is an object that the registry holds: a change to it is written back
    under the key it has. *)
Definition registerInRegistry (extensionIdentifier id : string)
    (provider : ProviderRef) (r : Registry) : Registry :=
  let '(extMap, r) :=
    match JsMap.get extensionIdentifier r with
    | Some extMap => (extMap, r)
    | None => (JsMap.empty, JsMap.set extensionIdentifier JsMap.empty r)
    end in
  JsMap.set extensionIdentifier (JsMap.set id provider extMap) r.

(** [registerTerminalCompletionProvider]: lines 110-111 change the
    provider object in the store; the handle returned is that of line 113. *)
Definition registerTerminalCompletionProvider
    (extensionIdentifier id : string) (provider : ProviderRef)
    (triggerCharacters : list string)
    (store : ProviderStore) (svc : TerminalCompletionService) :
  ProviderStore * TerminalCompletionService * IDisposable :=
  (alter (Provider.stamp triggerCharacters id) provider store,
   setProviders (registerInRegistry extensionIdentifier id provider (_providers svc)) svc,
   toDisposable extensionIdentifier id).

(** Lines 114-120: the function that the handle runs at its first
    invocation. *)
Definition disposeInRegistry (d : IDisposable) (r : Registry) : Registry :=
  match JsMap.get (disposeExtensionIdentifier d) r with
  | Some extMap =>
      let extMap' := JsMap.delete (disposeId d) extMap in
      if (JsMap.size extMap' =? 0)%nat
      then JsMap.delete (disposeExtensionIdentifier d) r
      else JsMap.set (disposeExtensionIdentifier d) extMap' r
  | None => r
  end.

(** [d.dispose()], as to the service: the function of lines 114-120
    runs, unless the handle has been invoked before. *)
Definition dispose (d : IDisposable) (svc : TerminalCompletionService) :
  TerminalCompletionService :=
  if isDisposed d then svc
  else setProviders (disposeInRegistry d (_providers svc)) svc.

(** [d.dispose()], as to the handle: from then on it has been invoked. *)
Definition afterDispose (d : IDisposable) : IDisposable :=
  mkDisposable (disposeExtensionIdentifier d) (disposeId d) true.

(** The provider stored under a pair of keys. *)
Definition lookupProvider (extensionIdentifier id : string) (r : Registry) :
  option ProviderRef :=
  match JsMap.get extensionIdentifier r with
  | Some extMap => JsMap.get id extMap
  | None => None
  end.

(** The entries stored under a pair of keys. *)
Definition entriesUnder (extensionIdentifier id : string) (r : Registry) :
  list ((string * string) * ProviderRef) :=
  List.filter (fun e => bool_decide (e.1 = (extensionIdentifier, id))) (entries r).

(** The registries that the service can have: it starts with an empty
    map, and only registrations and disposals change it. *)
Inductive Reachable : Registry -> Prop :=
  | reachable_new : Reachable JsMap.empty
  | reachable_register (extensionIdentifier id : string) (provider : ProviderRef)
      (r : Registry) :
      Reachable r ->
      Reachable (registerInRegistry extensionIdentifier id provider r)
  | reachable_dispose (d : IDisposable) (r : Registry) :
      Reachable r -> Reachable (disposeInRegistry d r).

(** The invariant of those registries: no key twice, at either level,
    and no extension left with an empty map. *)
Definition registryInv (r : Registry) : Prop :=
  JsMap.wf r /\ Forall (fun e => JsMap.wf e.2 /\ e.2 <> []) r.

(** *** Selection of the providers to request *)

(** Lines 132-144: the providers one of whose trigger characters ends the
    prompt up to the cursor, in the order of the generator. *)
Definition providersToRequest (promptValue : string) (cursorPosition : Z)
    (ps : list ITerminalCompletionProvider) : list ITerminalCompletionProvider :=
  List.filter
    (fun provider =>
       match Provider.triggerCharacters provider with
       | None => false
       | Some chars =>
           existsb
             (fun char =>
                JsString.endsWith (JsString.substring0 promptValue cursorPosition) char)
             chars
       end)
    ps.

(** [p.isBuiltin], read as a condition. *)
Definition isBuiltinTruthy (p : ITerminalCompletionProvider) : bool :=
  default false (Provider.isBuiltin p).

(** Lines 129-151: the list given to [_collectCompletions]. *)
Definition candidates (store : ProviderStore) (svc : TerminalCompletionService)
    (promptValue : string) (cursorPosition : Z) (triggerCharacter : bool) :
  list ITerminalCompletionProvider :=
  let extensionCompletionsEnabled :=
    enableExtensionCompletions (_configurationService svc) in
  let ps :=
    if triggerCharacter
    then providersToRequest promptValue cursorPosition (providers store svc)
    else providers store svc in
  if negb extensionCompletionsEnabled then List.filter isBuiltinTruthy ps else ps.

(** *** Resolution of file and folder completions *)

(** Lines 219-228: the kind of a child, if it is wanted. *)
Definition kindOfStat (foldersRequested filesRequested : bool) (stat : IFileStat) :
  option TerminalCompletionItemKind :=
  let kind := None in
  let kind :=
    if foldersRequested && Stat.isDirectory stat then Some Folder else kind in
  let kind :=
    if filesRequested && negb (Stat.isDirectory stat)
       && (Stat.isFile stat
           || String.eqb (URI.scheme (Stat.resource stat)) Schemas_file)
    then Some File else kind in
  kind.

Definition isKind (k : TerminalCompletionItemKind) (k' : TerminalCompletionItemKind) : bool :=
  match k, k' with
  | File, File | Folder, Folder | Flag, Flag | Method, Method
  | Argument, Argument => true
  | _, _ => false
  end.

(** Lines 218-239: the completions for the children of one directory. *)
Definition childCompletions (foldersRequested filesRequested : bool)
    (cwd : URI.t) (cursorPosition : Z) (lastWord : string)
    (prefix : string) (children : list IFileStat) : list Completion.t :=
  omap
    (fun stat =>
       match kindOfStat foldersRequested filesRequested stat with
       | None => None
       | Some kind =>
           let label :=
             prefix +:+ JsString.replaceFirst (URI.fsPath (Stat.resource stat))
                                              (URI.fsPath cwd) in
           Some (Completion.mk label None (Some kind)
                   (Some (isKind kind Folder)) (Some (isKind kind File))
                   (cursorPosition - Z.of_nat (String.length lastWord))%Z
                   (Z.of_nat (String.length label)))
       end)
    children.

(** Lines 211-240: the loop over the directories; [None] is the [return]
    at line 215, which gives up what was collected so far. *)
Fixpoint resolveDirs (fs : IFileService) (foldersRequested filesRequested : bool)
    (cwd : URI.t) (cursorPosition : Z) (lastWord : string)
    (dirs : list (URI.t * string)) (resourceCompletions : list Completion.t) :
  option (list Completion.t) :=
  match dirs with
  | [] => Some resourceCompletions
  | (dir, prefix) :: dirs' =>
      match resolve fs dir with
      | None => None
      | Some fileStat =>
          match Stat.children fileStat with
          | None => None
          | Some children =>
              resolveDirs fs foldersRequested filesRequested cwd cursorPosition
                lastWord dirs'
                (resourceCompletions
                 ++ childCompletions foldersRequested filesRequested cwd
                      cursorPosition lastWord prefix children)
          end
      end
  end.

(** Line 202 *)
Definition parentDirPath (cwd : URI.t) (pathSeparator : string) : string :=
  JsString.join (removelast (JsString.split (URI.fsPath cwd) pathSeparator))
                pathSeparator.

(** Line 203: [parentCwd] is a new object, so its reference is not that
    of [cwd]. *)
Definition parentCwd `{URI.Impl} (cwd : URI.t) (pathSeparator : string) : URI.t :=
  URI.from (S (URI.ref cwd)) (URI.scheme cwd) (parentDirPath cwd pathSeparator).

(** Lines 204-207 *)
Definition dirToPrefixMap `{URI.Impl} (cwd : URI.t) (pathSeparator : string) :
  JsMap.t URI.t string :=
  JsMap.set (parentCwd cwd pathSeparator) ".." (JsMap.set cwd "." JsMap.empty).

(** The children that the file service lists for a directory, if it
    lists any (the test of line 214). *)
Definition childrenOf (fs : IFileService) (dir : URI.t) : option (list IFileStat) :=
  match resolve fs dir with
  | Some fileStat => Stat.children fileStat
  | None => None
  end.

(** Line 209 *)
Definition lastWordOf (promptValue : string) (cursorPosition : Z) : string :=
  List.last (JsString.split (JsString.substring0 promptValue cursorPosition) " ") "".

(** [_resolveResources]; [None] is [undefined]. *)
Definition _resolveResources `{URI.Impl} (svc : TerminalCompletionService)
    (resourceRequestConfig : TerminalResourceRequestConfig)
    (promptValue : string) (cursorPosition : Z) : option (list Completion.t) :=
  let cwd := URI.revive (ResourceRequestConfig.cwd resourceRequestConfig) in
  let foldersRequested :=
    default false (ResourceRequestConfig.foldersRequested resourceRequestConfig) in
  let filesRequested :=
    default false (ResourceRequestConfig.filesRequested resourceRequestConfig) in
  match cwd with
  | None => None
  | Some cwd =>
      if negb foldersRequested && negb filesRequested then None
      else
        let pathSeparator := ResourceRequestConfig.pathSeparator resourceRequestConfig in
        let lastWord := lastWordOf promptValue cursorPosition in
        match resolveDirs (_fileService svc) foldersRequested filesRequested cwd
                cursorPosition lastWord (dirToPrefixMap cwd pathSeparator) [] with
        | None => None
        | Some resourceCompletions =>
            if (length resourceCompletions =? 0)%nat then None
            else Some resourceCompletions
        end
  end.

(** *** Collection of the completions *)

(** An element of the array that [_collectCompletions] returns: an item
    of a provider, by reference, or an item that [_resolveResources] has
    just made, which nothing else refers to. *)
Inductive Handle : Type :=
  | Ref (r : ItemRef)
  | New (c : Completion.t).

(** [completion.detail?.includes(id)], read as a condition. *)
Definition detailIncludes (completion : Completion.t) (providerId : string) : bool :=
  match Completion.detail completion with
  | Some d => JsString.includes d providerId
  | None => false
  end.

(** Lines 169-172, on one item. *)
Definition modifyLabel (devModeEnabled : bool) (providerId : string)
    (completion : Completion.t) : Completion.t :=
  if devModeEnabled && negb (detailIncludes completion providerId)
  then Completion.setDetail
         ("(" +:+ providerId +:+ ") " +:+ default "" (Completion.detail completion))
         completion
  else completion.

(** Lines 168-173: the items are changed where they are, one after the
    other; the new array holds the same references. *)
Definition modifyLabels (devModeEnabled : bool) (providerId : string)
    (completionItems : list ItemRef) (h : Heap) : Heap :=
  fold_left (fun h r => alter (modifyLabel devModeEnabled providerId) r h)
            completionItems h.

(** Line 158 *)
Definition excludesShell (provider : ITerminalCompletionProvider)
    (shellType : TerminalShellType) : bool :=
  match Provider.shellTypes provider with
  | Some shellTypes => negb (existsb (String.eqb shellType) shellTypes)
  | None => false
  end.

(** Line 166 *)
Definition completionItemsOf (completions : Completions) : list ItemRef :=
  match completions with
  | CompletionArray items => items
  | TerminalCompletionList items _ => default [] items
  end.

(** Lines 157-186: the function mapped over the providers. It returns
    the state in which its promise ends; [Fulfilled None] is a promise
    for [undefined]. *)
Definition completionPromise `{URI.Impl} (svc : TerminalCompletionService)
    (shellType : TerminalShellType) (promptValue : string) (cursorPosition : Z)
    (token : CancellationToken) (provider : ITerminalCompletionProvider)
    (h : Heap) : Heap * Promise (option (list Handle)) :=
  if excludesShell provider shellType then (h, Fulfilled None)
  else
    match Provider.provideCompletions provider promptValue cursorPosition token with
    | Pending => (h, Pending)
    | Rejected => (h, Rejected)
    | Fulfilled None => (h, Fulfilled None)
    | Fulfilled (Some completions) =>
        let devModeEnabled := devMode (_configurationService svc) in
        let completionItems := completionItemsOf completions in
        let h' := modifyLabels devModeEnabled (Provider.id provider) completionItems h in
        let itemsWithModifiedLabels := map Ref completionItems in
        match completions with
        | CompletionArray _ => (h', Fulfilled (Some itemsWithModifiedLabels))
        | TerminalCompletionList _ (Some resourceRequestConfig) =>
            match _resolveResources svc resourceRequestConfig promptValue cursorPosition with
            | Some resourceCompletions =>
                (h', Fulfilled (Some (itemsWithModifiedLabels ++ map New resourceCompletions)))
            | None => (h', Fulfilled (Some itemsWithModifiedLabels))
            end
        | TerminalCompletionList _ None => (h', Fulfilled None)
        end
    end.

(** The promises do not end in a fixed order. What a promise does to
    objects that others can see is the labelling of lines 168-173, which
    runs without interruption once the provider has answered; so each
    promise is run in one go, at its turn. [schedule] gives, turn by
    turn, the place among the promises still running of the one whose
    turn it is (counted modulo their number; the first one when the
    schedule is used up). [settleAll] runs all [n] of them and returns
    each state with the index of its promise. *)
Fixpoint settleAll {A : Type} (n : nat) (schedule : list nat)
    (running : list (nat * (Heap -> Heap * Promise A))) (h : Heap) :
  Heap * list (nat * Promise A) :=
  match n with
  | O => (h, [])
  | S n' =>
      let k := hd 0 schedule mod length running in
      match running !! k with
      | None => (h, [])
      | Some (i, run) =>
          let '(h1, state) := run h in
          let '(h2, states) := settleAll n' (tl schedule) (delete k running) h1 in
          (h2, (i, state) :: states)
      end
  end.

Definition isRejected {A : Type} (p : Promise A) : bool :=
  match p with Rejected => true | _ => false end.

Fixpoint fulfilledValues {A : Type} (ps : list (Promise A)) : option (list A) :=
  match ps with
  | [] => Some []
  | Fulfilled v :: ps' =>
      match fulfilledValues ps' with
      | Some vs => Some (v :: vs)
      | None => None
      end
  | _ :: _ => None
  end.

(** [Promise.all] of [n] promises whose states are [states]: rejected
    when one of them is, else fulfilled with their values in the order of
    the promises, once all are fulfilled. *)
Definition promiseAll {A : Type} (n : nat) (states : list (nat * Promise A)) :
  Promise (list A) :=
  let byIndex := map (fun i => default Pending (JsMap.get i states)) (seq 0 n) in
  if existsb isRejected byIndex then Rejected
  else match fulfilledValues byIndex with
       | Some values => Fulfilled values
       | None => Pending
       end.

(** Line 189: [results.filter(result => !!result).flat()] *)
Definition flatResults (results : list (option (list Handle))) : list Handle :=
  concat (omap (fun result => result) results).

(** [_collectCompletions] *)
Definition _collectCompletions `{URI.Impl} (svc : TerminalCompletionService)
    (schedule : list nat) (providers : list ITerminalCompletionProvider)
    (shellType : TerminalShellType) (promptValue : string) (cursorPosition : Z)
    (token : CancellationToken) (h : Heap) : Heap * Promise (list Handle) :=
  let completionPromises :=
    imap (fun i provider =>
            (i, completionPromise svc shellType promptValue cursorPosition token provider))
         providers in
  let '(h', states) :=
    settleAll (length completionPromises) schedule completionPromises h in
  (h',
   match promiseAll (length completionPromises) states with
   | Fulfilled results => Fulfilled (flatResults results)
   | Rejected => Rejected
   | Pending => Pending
   end).

(** [provideCompletions]. The test of line 125 never holds: [_providers]
    is a [Map]. *)
Definition provideCompletions `{URI.Impl} (store : ProviderStore)
    (svc : TerminalCompletionService) (schedule : list nat)
    (promptValue : string) (cursorPosition : Z) (shellType : TerminalShellType)
    (token : CancellationToken) (triggerCharacter : bool) (h : Heap) :
  Heap * Promise (list Handle) :=
  _collectCompletions svc schedule
    (candidates store svc promptValue cursorPosition triggerCharacter)
    shellType promptValue cursorPosition token h.

(** What the caller finds behind the handles of a result. *)
Definition observe (h : Heap) (result : Promise (list Handle)) :
  Promise (list (option Completion.t)) :=
  match result with
  | Fulfilled handles =>
      Fulfilled (map (fun x => match x with
                               | Ref r => h !! r
                               | New c => Some c
                               end) handles)
  | Rejected => Rejected
  | Pending => Pending
  end.

(** *** Notions used to state the properties *)

(** The state in which the promise made for a provider ends. It is read
    off a run on an empty store: the state does not depend on the store
    (lemma [completionPromise_state]). *)
Definition promiseState `{URI.Impl} (svc : TerminalCompletionService)
    (shellType : TerminalShellType) (promptValue : string) (cursorPosition : Z)
    (token : CancellationToken) (provider : ITerminalCompletionProvider) :
  Promise (option (list Handle)) :=
  (completionPromise svc shellType promptValue cursorPosition token provider []).2.

(** What a provider adds to the result: the items of its array; or the
    items of its list followed by the completions for files and folders,
    when the list asks for them; nothing in any other case. *)
Definition contribution `{URI.Impl} (svc : TerminalCompletionService)
    (shellType : TerminalShellType) (promptValue : string) (cursorPosition : Z)
    (token : CancellationToken) (provider : ITerminalCompletionProvider) :
  list Handle :=
  if excludesShell provider shellType then []
  else
    match Provider.provideCompletions provider promptValue cursorPosition token with
    | Fulfilled (Some (CompletionArray items)) => map Ref items
    | Fulfilled (Some (TerminalCompletionList items (Some config))) =>
        map Ref (default [] items)
        ++ map New (default [] (_resolveResources svc config promptValue cursorPosition))
    | _ => []
    end.

(** What [Promise.all] and line 189 make of the states of the promises,
    taken in the order of the providers. *)
Definition collected (states : list (Promise (option (list Handle)))) :
  Promise (list Handle) :=
  if existsb isRejected states then Rejected
  else match fulfilledValues states with
       | Some results => Fulfilled (flatResults results)
       | None => Pending
       end.

(** A provider that is invoked and throws, or whose promise is rejected. *)
Definition fails (shellType : TerminalShellType) (promptValue : string)
    (cursorPosition : Z) (token : CancellationToken)
    (provider : ITerminalCompletionProvider) : bool :=
  negb (excludesShell provider shellType)
  && isRejected (Provider.provideCompletions provider promptValue cursorPosition token).

(** A provider that is invoked and whose promise never ends. *)
Definition hangs (shellType : TerminalShellType) (promptValue : string)
    (cursorPosition : Z) (token : CancellationToken)
    (provider : ITerminalCompletionProvider) : bool :=
  negb (excludesShell provider shellType)
  && match Provider.provideCompletions provider promptValue cursorPosition token with
     | Pending => true
     | _ => false
     end.

(** The items that lines 168-173 go through for a provider, with the id
    written into their detail. *)
Definition labelling (shellType : TerminalShellType) (promptValue : string)
    (cursorPosition : Z) (token : CancellationToken)
    (provider : ITerminalCompletionProvider) : option (string * list ItemRef) :=
  if excludesShell provider shellType then None
  else match Provider.provideCompletions provider promptValue cursorPosition token with
       | Fulfilled (Some completions) =>
           Some (Provider.id provider, completionItemsOf completions)
       | _ => None
       end.

(** An item that line 169 leaves as it is. *)
Definition labelled (devModeEnabled : bool) (providerId : string)
    (completion : Completion.t) : bool :=
  negb devModeEnabled || detailIncludes completion providerId.

(** The items of a list are all labelled already. *)
Definition allLabelled (dev : bool) (providerId : string) (items : list ItemRef)
    (h : Heap) : Prop :=
  forall r c, r ∈ items -> h !! r = Some c -> labelled dev providerId c = true.

(** A provider all of whose items are labelled: running its promise
    leaves the store as it is. *)
Definition settledIn (svc : TerminalCompletionService)
    (shellType : TerminalShellType) (promptValue : string) (cursorPosition : Z)
    (token : CancellationToken) (p : ITerminalCompletionProvider) (h : Heap) : Prop :=
  match labelling shellType promptValue cursorPosition token p with
  | Some (providerId, items) =>
      allLabelled (devMode (_configurationService svc)) providerId items h
  | None => True
  end.

(** The items of the answer of a provider, which lines 168-173 go
    through. *)
Definition labelledItems (shellType : TerminalShellType) (promptValue : string)
    (cursorPosition : Z) (token : CancellationToken)
    (p : ITerminalCompletionProvider) : list ItemRef :=
  match labelling shellType promptValue cursorPosition token p with
  | Some (_, items) => items
  | None => []
  end.

(** No item is in the answers of two of the providers. *)
Definition noSharedItems (shellType : TerminalShellType) (promptValue : string)
    (cursorPosition : Z) (token : CancellationToken)
    (ps : list ITerminalCompletionProvider) : Prop :=
  forall i j p q r,
    ps !! i = Some p -> ps !! j = Some q ->
    r ∈ labelledItems shellType promptValue cursorPosition token p ->
    r ∈ labelledItems shellType promptValue cursorPosition token q ->
    i = j.

(** The provider, given with its index, has the item [r] in its answer. *)
Definition touchesItem (shellType : TerminalShellType) (promptValue : string)
    (cursorPosition : Z) (token : CancellationToken) (r : ItemRef)
    (ip : nat * ITerminalCompletionProvider) : bool :=
  bool_decide (r ∈ labelledItems shellType promptValue cursorPosition token ip.2).

(** What the promise of a provider does to the item [r]. *)
Definition touch (svc : TerminalCompletionService) (shellType : TerminalShellType)
    (promptValue : string) (cursorPosition : Z) (token : CancellationToken)
    (r : ItemRef) (p : ITerminalCompletionProvider) (c : Completion.t) :
  Completion.t :=
  if bool_decide (r ∈ labelledItems shellType promptValue cursorPosition token p)
  then modifyLabel (devMode (_configurationService svc)) (Provider.id p) c
  else c.

(** What the promises of the providers [ips] do to the item [r], when at
    most one of them has it in its answer. *)
Definition touchOnce (svc : TerminalCompletionService) (shellType : TerminalShellType)
    (promptValue : string) (cursorPosition : Z) (token : CancellationToken)
    (r : ItemRef) (ips : list (nat * ITerminalCompletionProvider))
    (c : Completion.t) : Completion.t :=
  match List.find (touchesItem shellType promptValue cursorPosition token r) ips with
  | Some ip => touch svc shellType promptValue cursorPosition token r ip.2 c
  | None => c
  end.

(** The promises of providers given with their indices. *)
Definition tasksOf `{URI.Impl} (svc : TerminalCompletionService)
    (shellType : TerminalShellType) (promptValue : string) (cursorPosition : Z)
    (token : CancellationToken) (ips : list (nat * ITerminalCompletionProvider)) :
  list (nat * (Heap -> Heap * Promise (option (list Handle)))) :=
  (fun ip =>
     (ip.1, completionPromise svc shellType promptValue cursorPosition token ip.2))
  <$> ips.

(** ** Sample values *)

(** Modelled from the spec: a URI implementation for the cases worked
    out below. The "full path" of a location is its path, and for a
    working directory without parent segment "the parent path becomes
    the root/empty path under the same scheme": an empty path is stored
    as the root [/]. *)
Definition posixUri : URI.Impl :=
  {| URI.referenceResolution :=
       fun _ path => match path with EmptyString => "/" | _ => path end;
     URI.uriToFsPath := fun _ path => path |}.

Definition fileUri (ref : nat) (path : string) : URI.t :=
  URI.mk ref "file" path path.

Definition noFiles : IFileService := {| resolve := fun _ => None |}.

Definition newService (extensionCompletions dev : bool) (fs : IFileService) :
  TerminalCompletionService :=
  mkService JsMap.empty
    {| enableExtensionCompletions := extensionCompletions; devMode := dev |} fs.

(** A provider that offers nothing, and a store with two of them. *)
Definition silentProvider : ITerminalCompletionProvider :=
  Provider.mk "" None (fun _ _ _ => Fulfilled None) None None.

Definition twoProviders : ProviderStore := [silentProvider; silentProvider].

(** A file system with the single folder [/a] under the root [/]. *)
Definition rootWithOneFolder : IFileService :=
  {| resolve := fun dir =>
       if String.eqb (URI.path dir) "/"
       then Some (FileStat dir true false
                    (Some [FileStat (fileUri 7 "/a") true false None]))
       else None |}.

(** A file system in which [/home/u] holds the folder [proj] and the
    file [a.txt], and [/home] holds [u]. *)
Definition homeOfU : IFileService :=
  {| resolve := fun dir =>
       if String.eqb (URI.path dir) "/home/u"
       then Some (FileStat dir true false
                    (Some [FileStat (fileUri 7 "/home/u/proj") true false None;
                           FileStat (fileUri 8 "/home/u/a.txt") false true None]))
       else if String.eqb (URI.path dir) "/home"
       then Some (FileStat dir true false
                    (Some [FileStat (fileUri 9 "/home/u") true false None]))
       else None |}.

Definition requestAll (cwd : URI.t) : TerminalResourceRequestConfig :=
  ResourceRequestConfig.mk (Some true) (Some true) (Some cwd) "/".

(** A provider that offers the given items as an array, one that throws,
    and one that offers a completion list. *)
Definition arrayProvider (items : list ItemRef) : ITerminalCompletionProvider :=
  Provider.mk "" None (fun _ _ _ => Fulfilled (Some (CompletionArray items))) None None.

Definition throwingProvider : ITerminalCompletionProvider :=
  Provider.mk "" None (fun _ _ _ => Rejected) None None.

Definition listProvider (items : option (list ItemRef))
    (config : option TerminalResourceRequestConfig) : ITerminalCompletionProvider :=
  Provider.mk "" None
    (fun _ _ _ => Fulfilled (Some (TerminalCompletionList items config))) None None.

Definition item (label : string) (detail : option string) : Completion.t :=
  Completion.mk label detail None None None 0 (Z.of_nat (String.length label)).

(** The service after three providers have been registered by one
    extension, with the store they live in. *)
Definition withThree (p1 p2 p3 : ITerminalCompletionProvider) (dev : bool) :
  ProviderStore * TerminalCompletionService :=
  let '(store1, svc1, _) :=
    registerTerminalCompletionProvider "ext" "one" 0 [] [p1; p2; p3]
      (newService true dev noFiles) in
  let '(store2, svc2, _) :=
    registerTerminalCompletionProvider "ext" "two" 1 [] store1 svc1 in
  let '(store3, svc3, _) :=
    registerTerminalCompletionProvider "ext" "three" 2 [] store2 svc2 in
  (store3, svc3).

(** ** Further notions and sample values *)

(** The entries of one extension, with their keys. *)
Definition entriesOf (ext : string) (extMap : JsMap.t string ProviderRef) :
  list ((string * string) * ProviderRef) :=
  map (fun '(i, p) => ((ext, i), p)) extMap.

(** A registry with one provider, registered as [git] by [ext]. *)
Definition oneRegistered : Registry :=
  registerInRegistry "ext" "git" 0 JsMap.empty.

(** One of the trigger characters of the provider ends the prompt up to
    the cursor (the test of lines 134-142). *)
Definition endsWithTrigger (promptValue : string) (cursorPosition : Z)
    (p : ITerminalCompletionProvider) : bool :=
  existsb (JsString.endsWith (JsString.substring0 promptValue cursorPosition))
          (default [] (Provider.triggerCharacters p)).

(** A provider object for [git], before its registration. *)
Definition gitProvider : ITerminalCompletionProvider :=
  Provider.mk "" None (fun _ _ _ => Fulfilled (Some (CompletionArray [0]))) None
    (Some true).

(** The character [ch] occurs in [s]. *)
Fixpoint hasChar (ch : ascii) (s : string) : bool :=
  match s with
  | EmptyString => false
  | String x s' => bool_decide (x = ch) || hasChar ch s'
  end.

(** A file system in which [/home] holds the folders [u] and [v]. *)
Definition homeWithTwo : IFileService :=
  {| resolve := fun dir =>
       if String.eqb (URI.path dir) "/home/u"
       then Some (FileStat dir true false (Some []))
       else if String.eqb (URI.path dir) "/home"
       then Some (FileStat dir true false
                    (Some [FileStat (fileUri 8 "/home/u") true false None;
                           FileStat (fileUri 9 "/home/v") true false None]))
       else None |}.

(** [c'] is [c] with, at most, a text put before its detail (a missing
    detail counting as the empty text). *)
Definition detailPrepended (c c' : Completion.t) : Prop :=
  c' = c
  \/ exists text,
       c' = Completion.setDetail (text +:+ default "" (Completion.detail c)) c.

(** The store [h'] holds the items of [h], at the same places, each with,
    at most, a text put before its detail. *)
Definition sameItemsUpToDetail (h h' : Heap) : Prop :=
  forall r,
    match h !! r, h' !! r with
    | Some c, Some c' => detailPrepended c c'
    | None, None => True
    | _, _ => False
    end.

(** A service in dev mode with two providers, registered as [one] and
    [two], that both answer with the item at place 0 of the store. *)
Definition twoOnOneItem : ProviderStore * TerminalCompletionService :=
  let '(store1, svc1, _) :=
    registerTerminalCompletionProvider "ext" "one" 0 []
      [arrayProvider [0]; arrayProvider [0]] (newService true true noFiles) in
  let '(store2, svc2, _) :=
    registerTerminalCompletionProvider "ext" "two" 1 [] store1 svc1 in
  (store2, svc2).

(** A service with one provider, registered as [files] with the trigger
    character [/], that answers with the item at place 0 of the store
    and asks for the files and folders of [/home/u]. *)
Definition withFilesProvider (extensionCompletions : bool) :
  ProviderStore * TerminalCompletionService :=
  let '(store1, svc1, _) :=
    registerTerminalCompletionProvider "ext" "files" 0 ["/"]
      [listProvider (Some [0]) (Some (requestAll (fileUri 0 "/home/u")))]
      (newService extensionCompletions true homeOfU) in
  (store1, svc1).

(* ================================================================== *)
(** * Properties *)
(* ================================================================== *)

(** ** Strings *)

Module JsStringFacts.
Import JsString.

Lemma app_nil_l (s : string) : "" +:+ s = s.
Proof. reflexivity. Qed.

Lemma app_cons (c : ascii) (s t : string) :
  String c s +:+ t = String c (s +:+ t).
Proof. reflexivity. Qed.

Lemma app_nil_r (s : string) : s +:+ "" = s.
Proof. induction s as [|c s IH]; [reflexivity|]. by rewrite app_cons, IH. Qed.

Lemma app_assoc (a b c : string) : (a +:+ b) +:+ c = a +:+ (b +:+ c).
Proof.
  induction a as [|x a IH]; [reflexivity|].
  by rewrite !app_cons, IH.
Qed.

Lemma length_app (a b : string) :
  String.length (a +:+ b) = String.length a + String.length b.
Proof.
  induction a as [|x a IH]; [reflexivity|].
  rewrite app_cons. simpl. by rewrite IH.
Qed.

Lemma drop_app_length (a b : string) : drop (String.length a) (a +:+ b) = b.
Proof. induction a as [|x a IH]; [reflexivity|]. rewrite app_cons. exact IH. Qed.

Lemma drop_split (n : nat) (s : string) :
  n <= String.length s ->
  exists a, s = a +:+ drop n s /\ String.length a = n.
Proof.
  revert s. induction n as [|n IH]; intros s Hn.
  - exists "". by rewrite app_nil_l.
  - destruct s as [|c s]; simpl in Hn; [lia|].
    destruct (IH s) as (a & Ha & Hlen); [lia|].
    exists (String c a). simpl. rewrite app_cons, <- Ha. by rewrite Hlen.
Qed.

Lemma startsWith_spec (s p : string) :
  startsWith s p = true <-> exists t, s = p +:+ t.
Proof.
  revert s. induction p as [|a p IH]; intros s; simpl.
  - split; [intros _; exists s; reflexivity|done].
  - destruct s as [|b s].
    + split; [done|]. intros [t Ht]. by rewrite app_cons in Ht.
    + destruct (decide (a = b)) as [->|Hne].
      * rewrite IH. split; intros [t Ht]; exists t.
        -- by rewrite app_cons, Ht.
        -- rewrite app_cons in Ht. by injection Ht.
      * split; [done|]. intros [t Ht]. rewrite app_cons in Ht.
        injection Ht as Hb _. by subst.
Qed.

Lemma startsWith_app (p t : string) : startsWith (p +:+ t) p = true.
Proof. apply startsWith_spec. by exists t. Qed.

Lemma includes_spec (s p : string) :
  includes s p = true <-> exists a b, s = a +:+ (p +:+ b).
Proof.
  induction s as [|c s IH]; simpl.
  - rewrite orb_false_r, startsWith_spec. split.
    + intros [t Ht]. by exists "", t.
    + intros (a & b & Hab). destruct a as [|x a]; [|by rewrite app_cons in Hab].
      by exists b.
  - rewrite orb_true_iff, IH, startsWith_spec. split.
    + intros [[t Ht]|(a & b & Hab)].
      * by exists "", t.
      * exists (String c a), b. by rewrite app_cons, Hab.
    + intros (a & b & Hab). destruct a as [|x a].
      * left. by exists b.
      * right. rewrite app_cons in Hab. injection Hab as _ Hs. by exists a, b.
Qed.

(** A text that contains [p] still does after something is put in
    front of it. *)
Lemma includes_app_l (a s p : string) :
  includes s p = true -> includes (a +:+ s) p = true.
Proof.
  rewrite !includes_spec. intros (x & y & ->).
  exists (a +:+ x), y. by rewrite app_assoc.
Qed.

Lemma includes_app_mid (a p b : string) : includes (a +:+ p +:+ b) p = true.
Proof. apply includes_spec. by exists a, b. Qed.

Lemma endsWith_spec (s p : string) :
  endsWith s p = true <-> exists a, s = a +:+ p.
Proof.
  unfold endsWith. rewrite andb_true_iff, Nat.leb_le, String.eqb_eq. split.
  - intros [Hlen Hdrop].
    destruct (drop_split (String.length s - String.length p) s) as (a & Ha & _); [lia|].
    exists a. rewrite <- Hdrop. exact Ha.
  - intros [a ->]. rewrite length_app. split; [lia|].
    replace (String.length a + String.length p - String.length p)
      with (String.length a) by lia.
    apply drop_app_length.
Qed.

(** [endsWith] with a one-character text looks at the last character. *)
Lemma endsWith_char (s : string) (c : ascii) :
  endsWith s (String c "") = true
  <-> List.last (map Some (String.list_ascii_of_string s)) None = Some c.
Proof.
  rewrite endsWith_spec. split.
  - intros [a ->]. induction a as [|x a IH]; [reflexivity|].
    rewrite app_cons. simpl.
    destruct (String.list_ascii_of_string (a +:+ String c "")) eqn:E; [|exact IH].
    destruct a; discriminate E.
  - induction s as [|x s IH]; [discriminate|]. simpl.
    destruct (String.list_ascii_of_string s) as [|y l] eqn:E.
    + intros [= ->]. exists "". destruct s; [reflexivity|discriminate E].
    + intros H. destruct (IH H) as [a ->]. exists (String x a). by rewrite app_cons.
Qed.
End JsStringFacts.

Example split_path : JsString.split "/home/u" "/" = [""; "home"; "u"].
Proof. reflexivity. Qed.

Example split_root : JsString.split "/" "/" = [""; ""].
Proof. reflexivity. Qed.

Example split_overlap : JsString.split "aaa" "aa" = [""; "a"].
Proof. reflexivity. Qed.

Example join_parent :
  JsString.join (removelast (JsString.split "/home/u" "/")) "/" = "/home".
Proof. reflexivity. Qed.

Example endsWith_dash : JsString.endsWith "git -" "-" = true.
Proof. reflexivity. Qed.

Example replaceFirst_cwd : JsString.replaceFirst "/home/u/proj" "/home/u" = "/proj".
Proof. reflexivity. Qed.

(** ** Maps *)

Module JsMapFacts.
Import JsMap.

Section facts.
Context {K V : Type} `{EqDecision K}.
Implicit Types (k : K) (v : V) (m : JsMap.t K V).

Lemma get_None k m : get k m = None <-> k ∉ keys m.
Proof.
  induction m as [|[k' v'] m IH]; simpl.
  - split; [intros _; apply not_elem_of_nil|done].
  - rewrite not_elem_of_cons. destruct (decide (k' = k)) as [->|Hne].
    + split; [done|]. by intros [? _].
    + rewrite IH. split; [by intros ?; split; [congruence|]|by intros [_ ?]].
Qed.

Lemma get_Some_elem k v m : get k m = Some v -> (k, v) ∈ m.
Proof.
  induction m as [|[k' v'] m IH]; simpl; [done|].
  destruct (decide (k' = k)) as [->|Hne].
  - intros [= ->]. apply elem_of_cons. by left.
  - intros Hg. apply elem_of_cons. right. auto.
Qed.

Lemma get_elem_wf k v m : wf m -> (k, v) ∈ m -> get k m = Some v.
Proof.
  unfold wf. induction m as [|[k' v'] m IH]; simpl.
  - by intros _ ?%elem_of_nil.
  - rewrite NoDup_cons, elem_of_cons. intros [Hnotin Hwf] [[= <- <-]|Hin].
    + by rewrite decide_True.
    + rewrite decide_False; [auto|]. intros ->. apply Hnotin.
      clear -Hin. induction m as [|[k0 v0] m IHm]; simpl in *.
      * by apply elem_of_nil in Hin.
      * apply elem_of_cons in Hin as [[= -> ->]|Hin]; apply elem_of_cons; auto.
Qed.

Lemma get_set_eq k v m : get k (set k v m) = Some v.
Proof.
  induction m as [|[k' v'] m IH]; simpl.
  - by rewrite decide_True.
  - destruct (decide (k' = k)) as [->|Hne]; simpl.
    + by rewrite decide_True.
    + by rewrite decide_False.
Qed.

Lemma get_set_ne k k' v m : k ≠ k' -> get k' (set k v m) = get k' m.
Proof.
  intros Hne. induction m as [|[k0 v0] m IH]; simpl.
  - by rewrite decide_False.
  - destruct (decide (k0 = k)) as [->|Hne0]; simpl.
    + by rewrite !decide_False.
    + by rewrite IH.
Qed.

Lemma not_elem_of_keys_delete k m : k ∉ keys (delete k m).
Proof.
  induction m as [|[k' v'] m IH]; simpl; [apply not_elem_of_nil|].
  destruct (decide (k' = k)) as [->|Hne]; [done|].
  simpl. rewrite not_elem_of_cons. split; [congruence|done].
Qed.

Lemma elem_of_keys_delete k k' m : k' ∈ keys (delete k m) -> k' ∈ keys m.
Proof.
  induction m as [|[k0 v0] m IH]; simpl; [done|].
  destruct (decide (k0 = k)) as [->|Hne]; simpl.
  - intros Hin. apply elem_of_cons. right. auto.
  - rewrite !elem_of_cons. intros [?|?]; [by left|right; auto].
Qed.

Lemma get_delete_eq k m : get k (delete k m) = None.
Proof. apply get_None, not_elem_of_keys_delete. Qed.

Lemma get_delete_ne k k' m : k ≠ k' -> get k' (delete k m) = get k' m.
Proof.
  intros Hne. induction m as [|[k0 v0] m IH]; simpl; [done|].
  destruct (decide (k0 = k)) as [->|Hne0]; simpl.
  - by rewrite decide_False.
  - by rewrite IH.
Qed.

Lemma delete_notin k m : k ∉ keys m -> delete k m = m.
Proof.
  induction m as [|[k' v'] m IH]; simpl; [done|].
  rewrite not_elem_of_cons. intros [Hne Hnotin].
  rewrite decide_False by congruence. by rewrite IH.
Qed.

Lemma delete_delete k m : delete k (delete k m) = delete k m.
Proof. apply delete_notin, not_elem_of_keys_delete. Qed.

Lemma set_notin k v m : k ∉ keys m -> set k v m = m ++ [(k, v)].
Proof.
  induction m as [|[k' v'] m IH]; simpl; [done|].
  rewrite not_elem_of_cons. intros [Hne Hnotin].
  rewrite decide_False by congruence. by rewrite IH.
Qed.

Lemma keys_set_in k v m : k ∈ keys m -> keys (set k v m) = keys m.
Proof.
  induction m as [|[k' v'] m IH]; simpl.
  - by intros ?%elem_of_nil.
  - destruct (decide (k' = k)) as [->|Hne]; [done|].
    rewrite elem_of_cons. intros [?|Hin]; [congruence|].
    simpl. by rewrite IH.
Qed.

Lemma set_get_id k v m : get k m = Some v -> set k v m = m.
Proof.
  induction m as [|[k' v'] m IH]; simpl; [done|].
  destruct (decide (k' = k)) as [->|Hne].
  - by intros [= ->].
  - intros Hg. by rewrite IH.
Qed.

Lemma size_set k v m :
  size (set k v m) = match get k m with Some _ => size m | None => S (size m) end.
Proof.
  unfold size. induction m as [|[k' v'] m IH]; simpl; [done|].
  destruct (decide (k' = k)) as [->|Hne]; simpl; [done|].
  rewrite IH. by destruct (get k m).
Qed.

Lemma delete_set k v m : delete k (set k v m) = delete k m.
Proof.
  induction m as [|[k' v'] m IH]; simpl.
  - by rewrite decide_True.
  - destruct (decide (k' = k)) as [->|Hne]; simpl.
    + by rewrite decide_True.
    + by rewrite decide_False, IH.
Qed.

Lemma set_set k v v' m : set k v (set k v' m) = set k v m.
Proof.
  induction m as [|[k' v0] m IH]; simpl.
  - by rewrite decide_True.
  - destruct (decide (k' = k)) as [->|Hne]; simpl.
    + by rewrite decide_True.
    + by rewrite decide_False, IH.
Qed.

Lemma set_ne_nil k v m : set k v m <> [].
Proof. destruct m as [|[k' v'] m]; simpl; [done|]. by destruct (decide (k' = k)). Qed.

Lemma Forall_set (P : K * V -> Prop) k v m :
  (forall k', P (k', v)) -> Forall P m -> Forall P (set k v m).
Proof.
  intros Hv. induction 1 as [|[k' v'] m Hx Hm IH]; simpl.
  - by constructor.
  - destruct (decide (k' = k)); constructor; auto.
Qed.

Lemma Forall_delete (P : K * V -> Prop) k m :
  Forall P m -> Forall P (delete k m).
Proof.
  induction 1 as [|[k' v'] m Hx Hm IH]; simpl; [constructor|].
  destruct (decide (k' = k)); [done|]. by constructor.
Qed.

Lemma wf_empty : wf (@empty K V).
Proof. apply NoDup_nil_2. Qed.

Lemma wf_set k v m : wf m -> wf (set k v m).
Proof.
  unfold wf. intros Hwf. destruct (decide (k ∈ keys m)) as [Hin|Hnotin].
  - by rewrite keys_set_in.
  - rewrite set_notin by done. unfold keys. rewrite map_app. simpl.
    apply NoDup_app. split_and!; [done| |apply NoDup_singleton].
    intros x Hx ->%list_elem_of_singleton. done.
Qed.

Lemma wf_delete k m : wf m -> wf (delete k m).
Proof.
  unfold wf. induction m as [|[k' v'] m IH]; simpl; [done|].
  rewrite NoDup_cons. intros [Hnotin Hwf].
  destruct (decide (k' = k)) as [->|Hne]; [auto|].
  simpl. rewrite NoDup_cons. split; [|auto].
  intros Hin. by apply Hnotin, (elem_of_keys_delete k).
Qed.

(** In a well-formed map, deleting a key that is there removes one entry. *)
Lemma size_delete_Some k v m :
  wf m -> get k m = Some v -> S (size (delete k m)) = size m.
Proof.
  unfold wf, size. induction m as [|[k' v'] m IH]; simpl; [done|].
  rewrite NoDup_cons. intros [Hnotin Hwf].
  destruct (decide (k' = k)) as [->|Hne]; simpl.
  - intros _. by rewrite delete_notin.
  - intros Hg. by rewrite IH.
Qed.
End facts.
End JsMapFacts.

(** ** The registry *)

Section registry.
Import JsMap JsMapFacts.
Implicit Types (r : Registry) (ext id : string) (p : ProviderRef).

Lemma registerInRegistry_eq ext id p r :
  registerInRegistry ext id p r
  = set ext (set id p (default empty (get ext r))) r.
Proof.
  unfold registerInRegistry. destruct (get ext r); [done|]. simpl. apply set_set.
Qed.

Lemma lookupProvider_register ext id p r :
  lookupProvider ext id (registerInRegistry ext id p r) = Some p.
Proof.
  rewrite registerInRegistry_eq. unfold lookupProvider.
  rewrite get_set_eq. apply get_set_eq.
Qed.

Lemma get_dispose ext id r :
  get ext (disposeInRegistry (toDisposable ext id) r)
  = match get ext r with
    | Some extMap =>
        if (size (delete id extMap) =? 0)%nat then None
        else Some (delete id extMap)
    | None => None
    end.
Proof.
  unfold disposeInRegistry; simpl. destruct (get ext r) as [m|] eqn:E; [|done].
  destruct (size (delete id m) =? 0)%nat.
  - apply get_delete_eq.
  - apply get_set_eq.
Qed.

Lemma lookupProvider_dispose ext id r :
  lookupProvider ext id (disposeInRegistry (toDisposable ext id) r) = None.
Proof.
  unfold lookupProvider. rewrite get_dispose.
  destruct (get ext r) as [m|]; [|done].
  destruct (size (delete id m) =? 0)%nat; [done|]. apply get_delete_eq.
Qed.

(** Disposing after a registration under the same keys undoes it,
    whatever was stored under them before. *)
Lemma dispose_register ext id p r :
  disposeInRegistry (toDisposable ext id) (registerInRegistry ext id p r)
  = disposeInRegistry (toDisposable ext id) r.
Proof.
  rewrite registerInRegistry_eq. unfold disposeInRegistry; simpl.
  rewrite get_set_eq, delete_set.
  destruct (get ext r) as [m|] eqn:E.
  - simpl. destruct (size (delete id m) =? 0)%nat.
    + apply delete_set.
    + apply set_set.
  - simpl. rewrite delete_set. apply delete_notin. by apply get_None.
Qed.

Lemma dispose_idemp (d : IDisposable) r :
  disposeInRegistry d (disposeInRegistry d r) = disposeInRegistry d r.
Proof.
  destruct d as [ext id invoked].
  change (disposeInRegistry (mkDisposable ext id invoked))
    with (disposeInRegistry (toDisposable ext id)).
  unfold disposeInRegistry at 1. simpl.
  rewrite get_dispose. destruct (get ext r) as [m|] eqn:E; [|done].
  destruct (size (delete id m) =? 0)%nat eqn:Es; [done|].
  rewrite delete_delete, Es. unfold disposeInRegistry; simpl.
  rewrite E, Es. apply set_set.
Qed.

(** *** The invariant *)

Lemma registryInv_get ext (m : JsMap.t string ProviderRef) r :
  registryInv r -> get ext r = Some m -> wf m /\ m <> [].
Proof.
  intros [_ Hall] Hg. apply get_Some_elem in Hg.
  rewrite Forall_forall in Hall. exact (Hall _ Hg).
Qed.

Lemma registryInv_register ext id p r :
  registryInv r -> registryInv (registerInRegistry ext id p r).
Proof.
  intros Hinv. pose proof Hinv as [Hwf Hall]. rewrite registerInRegistry_eq. split.
  - by apply wf_set.
  - apply Forall_set; [|done]. intros k0. simpl. split; [|apply set_ne_nil].
    apply wf_set. destruct (get ext r) as [m|] eqn:E.
    + by destruct (registryInv_get ext m r).
    + apply wf_empty.
Qed.

Lemma registryInv_dispose (d : IDisposable) r :
  registryInv r -> registryInv (disposeInRegistry d r).
Proof.
  intros Hinv. pose proof Hinv as [Hwf Hall]. unfold disposeInRegistry.
  destruct (get (disposeExtensionIdentifier d) r) as [m|] eqn:E; [|done].
  destruct (registryInv_get _ m r Hinv E) as [Hm _].
  destruct (size (delete (disposeId d) m) =? 0)%nat eqn:Es.
  - split; [by apply wf_delete|by apply Forall_delete].
  - split; [by apply wf_set|]. apply Forall_set; [|done].
    intros k0. simpl. split; [by apply wf_delete|].
    intros Hnil. rewrite Hnil in Es. done.
Qed.

Lemma Reachable_inv r : Reachable r -> registryInv r.
Proof.
  induction 1 as [|ext id p r _ IH|d r _ IH].
  - split; [apply wf_empty|constructor].
  - by apply registryInv_register.
  - by apply registryInv_dispose.
Qed.

(** *** The number of providers that the generator yields *)

Lemma count_set ext (m : JsMap.t string ProviderRef) r :
  length (_providersGenerator (set ext m r)) + size (default [] (get ext r))
  = length (_providersGenerator r) + size m.
Proof.
  unfold _providersGenerator, values, size.
  induction r as [|[k' m'] r IH]; simpl.
  - rewrite length_app, length_map. simpl. lia.
  - destruct (decide (k' = ext)) as [->|Hne]; simpl.
    + rewrite !length_app, !length_map. lia.
    + rewrite !length_app, !length_map. lia.
Qed.

Lemma count_delete ext r :
  wf r ->
  length (_providersGenerator (delete ext r)) + size (default [] (get ext r))
  = length (_providersGenerator r).
Proof.
  unfold _providersGenerator, values, size, wf.
  induction r as [|[k' m'] r IH]; simpl; [done|].
  rewrite NoDup_cons. intros [Hnotin Hwf].
  destruct (decide (k' = ext)) as [->|Hne]; simpl.
  - rewrite delete_notin by done. rewrite !length_app, !length_map. lia.
  - rewrite !length_app, !length_map. specialize (IH Hwf). lia.
Qed.

Lemma lookupProvider_get ext id r :
  lookupProvider ext id r = get id (default [] (get ext r)).
Proof. unfold lookupProvider. by destruct (get ext r). Qed.

Lemma count_register ext id p r :
  length (_providersGenerator (registerInRegistry ext id p r))
  = match lookupProvider ext id r with
    | Some _ => length (_providersGenerator r)
    | None => S (length (_providersGenerator r))
    end.
Proof.
  rewrite lookupProvider_get, registerInRegistry_eq.
  pose proof (count_set ext (set id p (default empty (get ext r))) r) as Hc.
  rewrite size_set in Hc.
  destruct (get ext r) as [m|] eqn:E; simpl in *.
  - destruct (get id m); lia.
  - unfold size in Hc. simpl in Hc. lia.
Qed.

Lemma count_dispose ext id r :
  registryInv r ->
  match lookupProvider ext id r with
  | Some _ =>
      S (length (_providersGenerator (disposeInRegistry (toDisposable ext id) r)))
      = length (_providersGenerator r)
  | None => disposeInRegistry (toDisposable ext id) r = r
  end.
Proof.
  intros Hinv. pose proof Hinv as [Hwf _].
  unfold lookupProvider, disposeInRegistry; simpl.
  destruct (get ext r) as [m|] eqn:E; [|done].
  destruct (registryInv_get ext m r Hinv E) as [Hm Hne].
  destruct (get id m) as [q|] eqn:Eid.
  - pose proof (size_delete_Some id q m Hm Eid) as Hs.
    destruct (size (delete id m) =? 0)%nat eqn:Es.
    + pose proof (count_delete ext r Hwf) as Hc. rewrite E in Hc. simpl in Hc.
      apply Nat.eqb_eq in Es. lia.
    + pose proof (count_set ext (delete id m) r) as Hc. rewrite E in Hc.
      simpl in Hc. lia.
  - apply get_None in Eid. rewrite delete_notin by done.
    destruct (size m =? 0)%nat eqn:Es.
    + apply Nat.eqb_eq in Es. destruct m; [done|discriminate Es].
    + by apply set_get_id.
Qed.

(** *** The entries with their keys *)

Lemma elem_of_keys_entries ext id r :
  (ext, id) ∈ map fst (entries r) ->
  exists m, (ext, m) ∈ r /\ id ∈ keys m.
Proof.
  unfold entries. induction r as [|[e m] r IH]; simpl.
  - by intros ?%elem_of_nil.
  - rewrite map_app, elem_of_app. intros [Hin|Hin].
    + exists m. assert (ext = e /\ id ∈ keys m) as [-> ?].
      { clear IH. induction m as [|[i q] m IHm]; simpl in *.
        - by apply elem_of_nil in Hin.
        - apply elem_of_cons in Hin as [[= -> ->]|Hin].
          + split; [done|]. apply elem_of_cons. by left.
          + destruct (IHm Hin) as [-> ?]. split; [done|].
            apply elem_of_cons. by right. }
      split; [|done]. apply elem_of_cons. by left.
    + destruct (IH Hin) as (m' & ? & ?). exists m'. split; [|done].
      apply elem_of_cons. by right.
Qed.

Lemma NoDup_keys_entries r : registryInv r -> NoDup (map fst (entries r)).
Proof.
  unfold registryInv, wf, entries. intros [Hwf Hall].
  induction r as [|[e m] r IH]; simpl; [apply NoDup_nil_2|].
  apply NoDup_cons in Hwf as [Hnotin Hwf].
  apply Forall_cons in Hall as [[Hm _] Hall]. simpl in *.
  rewrite map_app. apply NoDup_app. split_and!.
  - clear -Hm. unfold wf in Hm. induction m as [|[i q] m IHm]; simpl in *.
    + apply NoDup_nil_2.
    + apply NoDup_cons in Hm as [Hi Hm]. apply NoDup_cons. split; [|auto].
      intros Hin. apply Hi. clear -Hin.
      induction m as [|[j q'] m IHm]; simpl in *.
      * by apply elem_of_nil in Hin.
      * apply elem_of_cons in Hin as [[= ->]|Hin]; apply elem_of_cons; auto.
  - intros [e' i] Hin1 Hin2.
    assert (e' = e) as ->.
    { clear -Hin1. induction m as [|[j q'] m IHm]; simpl in *.
      - by apply elem_of_nil in Hin1.
      - apply elem_of_cons in Hin1 as [[= -> _]|Hin1]; auto. }
    apply elem_of_keys_entries in Hin2 as (m' & Hin2 & _).
    apply Hnotin. clear -Hin2. induction r as [|[e0 m0] r IHr]; simpl.
    + by apply elem_of_nil in Hin2.
    + apply elem_of_cons in Hin2 as [[= -> ->]|Hin2]; apply elem_of_cons; auto.
  - by apply IH.
Qed.

Lemma lookupProvider_entries ext id p r :
  lookupProvider ext id r = Some p -> ((ext, id), p) ∈ entries r.
Proof.
  unfold lookupProvider, entries. induction r as [|[e m] r IH]; simpl; [done|].
  rewrite elem_of_app. destruct (decide (e = ext)) as [->|Hne]; [|by right; auto].
  intros Hg. left. clear IH. induction m as [|[i q] m IHm]; simpl in *; [done|].
  apply elem_of_cons. destruct (decide (i = id)) as [->|Hne].
  - left. congruence.
  - right. auto.
Qed.

Lemma filter_key_notin {A B : Type} `{EqDecision A} (l : list (A * B)) k :
  k ∉ map fst l -> List.filter (fun e => bool_decide (e.1 = k)) l = [].
Proof.
  induction l as [|[k0 v0] l IHl]; simpl; [done|].
  rewrite not_elem_of_cons. intros [Hne Hnotin].
  rewrite bool_decide_false by congruence. auto.
Qed.

Lemma filter_key_unique {A B : Type} `{EqDecision A} (l : list (A * B)) k v :
  NoDup (map fst l) -> (k, v) ∈ l ->
  List.filter (fun e => bool_decide (e.1 = k)) l = [(k, v)].
Proof.
  induction l as [|[k' v'] l IH]; simpl.
  - by intros _ ?%elem_of_nil.
  - rewrite NoDup_cons, elem_of_cons. intros [Hnotin Hnd] [[= <- <-]|Hin].
    + rewrite bool_decide_true by done. f_equal.
      by apply filter_key_notin.
    + rewrite bool_decide_false; [by apply IH|].
      intros ->. apply Hnotin. clear -Hin.
      induction l as [|[k0 v0] l IHl]; simpl in *.
      * by apply elem_of_nil in Hin.
      * apply elem_of_cons in Hin as [[= -> ->]|Hin]; apply elem_of_cons; auto.
Qed.

Lemma entriesUnder_lookup ext id p r :
  registryInv r -> lookupProvider ext id r = Some p ->
  entriesUnder ext id r = [((ext, id), p)].
Proof.
  intros Hinv Hl. apply filter_key_unique.
  - by apply NoDup_keys_entries.
  - by apply lookupProvider_entries.
Qed.

Lemma entriesUnder_None ext id r :
  registryInv r -> lookupProvider ext id r = None -> entriesUnder ext id r = [].
Proof.
  intros [Hwf _] Hl. apply filter_key_notin.
  intros (m & Hin & Hid)%elem_of_keys_entries.
  apply (get_elem_wf _ _ _ Hwf) in Hin.
  unfold lookupProvider in Hl. rewrite Hin in Hl.
  by apply get_None in Hl.
Qed.
End registry.

(** ** Collection of the completions *)

Section collection.
Context `{URI.Impl}.
Context (svc : TerminalCompletionService) (shellType : TerminalShellType)
        (promptValue : string) (cursorPosition : Z) (token : CancellationToken).

Local Abbreviation run := (completionPromise svc shellType promptValue cursorPosition token).
Local Abbreviation state := (promiseState svc shellType promptValue cursorPosition token).
Local Abbreviation tasks := (tasksOf svc shellType promptValue cursorPosition token).
Local Abbreviation settled := (settledIn svc shellType promptValue cursorPosition token).

Lemma map_fmap {A B : Type} (f : A -> B) (l : list A) : map f l = f <$> l.
Proof. reflexivity. Qed.

(** The state of the promise of a provider does not depend on the store. *)
Lemma completionPromise_state (provider : ITerminalCompletionProvider) (h : Heap) :
  (run provider h).2 = state provider.
Proof.
  unfold promiseState, completionPromise.
  destruct (excludesShell provider shellType); [done|].
  destruct (Provider.provideCompletions _ _ _ _) as [|[completions|]|]; try done.
  destruct completions as [items|items [config|]]; try done.
  by destruct (_resolveResources _ _ _ _).
Qed.

(** The only change to the store is the labelling of the items. *)
Lemma completionPromise_heap (provider : ITerminalCompletionProvider) (h : Heap) :
  (run provider h).1
  = match labelling shellType promptValue cursorPosition token provider with
    | Some (providerId, items) =>
        modifyLabels (devMode (_configurationService svc)) providerId items h
    | None => h
    end.
Proof.
  unfold labelling, completionPromise.
  destruct (excludesShell provider shellType); [done|].
  destruct (Provider.provideCompletions _ _ _ _) as [|[completions|]|]; try done.
  destruct completions as [items|items [config|]]; try done.
  by destruct (_resolveResources _ _ _ _).
Qed.

(** *** The schedule *)

Lemma tasks_lookup (ips : list (nat * ITerminalCompletionProvider)) (k : nat) :
  tasks ips !! k = (fun ip => (ip.1, run ip.2)) <$> ips !! k.
Proof. apply list_lookup_fmap. Qed.

Lemma settleAll_S {A : Type} (n : nat) (schedule : list nat)
    (running : list (nat * (Heap -> Heap * Promise A))) (h : Heap)
    (k i : nat) (task : Heap -> Heap * Promise A) :
  k = hd 0 schedule mod length running ->
  running !! k = Some (i, task) ->
  settleAll (S n) schedule running h
  = let r1 := task h in
    let r2 := settleAll n (tl schedule) (delete k running) r1.1 in
    (r2.1, (i, r1.2) :: r2.2).
Proof.
  intros -> Hk. simpl. rewrite Hk. destruct (task h) as [h1 st]. simpl.
  by destruct (settleAll n _ _ h1).
Qed.

(** Some promise is always next: the place taken from the schedule is
    that of a running promise. *)
Lemma schedule_picks (schedule : list nat)
    (ips : list (nat * ITerminalCompletionProvider)) (n : nat) :
  length ips = S n ->
  exists ip, ips !! (hd 0 schedule mod length (tasks ips)) = Some ip.
Proof.
  intros Hlen. apply lookup_lt_is_Some_2.
  unfold tasksOf. rewrite length_fmap, Hlen.
  apply Nat.mod_upper_bound. lia.
Qed.

Lemma settleAll_tasks_S (n : nat) (schedule : list nat)
    (ips : list (nat * ITerminalCompletionProvider)) (h : Heap) :
  length ips = S n ->
  exists k ip,
    ips !! k = Some ip
    /\ settleAll (S n) schedule (tasks ips) h
       = let r2 := settleAll n (tl schedule) (tasks (delete k ips)) (run ip.2 h).1 in
         (r2.1, (ip.1, state ip.2) :: r2.2).
Proof.
  intros Hlen. destruct (schedule_picks schedule ips n Hlen) as [ip Hip].
  exists (hd 0 schedule mod length (tasks ips)), ip. split; [done|].
  erewrite settleAll_S; [|reflexivity|].
  - simpl. rewrite completionPromise_state. unfold tasksOf.
    by rewrite list_fmap_delete.
  - by rewrite tasks_lookup, Hip.
Qed.

(** Every promise ends, in the order of the schedule: the states are
    those of the providers, each with its index. *)
Lemma settleAll_states (n : nat) (schedule : list nat)
    (ips : list (nat * ITerminalCompletionProvider)) (h : Heap) :
  length ips = n ->
  (settleAll n schedule (tasks ips) h).2 ≡ₚ (fun ip => (ip.1, state ip.2)) <$> ips.
Proof.
  revert schedule ips h. induction n as [|n IH]; intros schedule ips h Hlen.
  - by destruct ips.
  - destruct (settleAll_tasks_S n schedule ips h Hlen) as (k & ip & Hk & ->).
    simpl. rewrite IH.
    + rewrite (delete_Permutation ips k ip Hk) at 2. done.
    + rewrite length_delete by (by eexists). lia.
Qed.

(** *** [Promise.all] *)

Lemma get_Permutation {K V : Type} `{EqDecision K} (l l' : JsMap.t K V) (k : K) :
  JsMap.wf l -> l ≡ₚ l' -> JsMap.get k l' = JsMap.get k l.
Proof.
  intros Hwf Hperm.
  assert (JsMap.wf l') as Hwf'.
  { unfold JsMap.wf, JsMap.keys in *. rewrite !map_fmap in *. by rewrite <- Hperm. }
  destruct (JsMap.get k l) as [v|] eqn:E.
  - apply JsMapFacts.get_elem_wf; [done|]. rewrite <- Hperm.
    by apply JsMapFacts.get_Some_elem.
  - apply JsMapFacts.get_None. apply JsMapFacts.get_None in E.
    unfold JsMap.keys in *. rewrite !map_fmap in *. by rewrite <- Hperm.
Qed.

Lemma get_indexed {A B : Type} (g : A -> B) (l : list A) (k i : nat) :
  JsMap.get (k + i) (imap (fun j x => (k + j, g x)) l) = g <$> l !! i.
Proof.
  revert k i. induction l as [|x l IH]; intros k i; [done|].
  rewrite imap_cons. simpl. destruct i as [|i].
  - by rewrite decide_True by lia.
  - rewrite decide_False by lia. simpl. rewrite <- (IH (S k) i).
    replace (k + S i) with (S k + i) by lia. f_equal.
    apply imap_ext. intros j y _. simpl. f_equal. lia.
Qed.

Lemma keys_indexed {A B : Type} (g : A -> B) (l : list A) (k : nat) :
  JsMap.keys (imap (fun j x => (k + j, g x)) l) = seq k (length l).
Proof.
  revert k. induction l as [|x l IH]; intros k; [done|].
  rewrite imap_cons. simpl. f_equal; [lia|]. rewrite <- (IH (S k)).
  f_equal. apply imap_ext. intros j y _. simpl. f_equal. lia.
Qed.

Lemma get_indexed_0 {A B : Type} (g : A -> B) (l : list A) (i : nat) :
  JsMap.get i (imap (fun j x => (j, g x)) l) = g <$> l !! i.
Proof. exact (get_indexed g l 0 i). Qed.

Lemma keys_indexed_0 {A B : Type} (g : A -> B) (l : list A) :
  JsMap.keys (imap (fun j x => (j, g x)) l) = seq 0 (length l).
Proof. exact (keys_indexed g l 0). Qed.

Lemma promiseAll_indexed {A B : Type} (g : A -> Promise B) (l : list A) :
  promiseAll (length l) (imap (fun j x => (j, g x)) l)
  = if existsb isRejected (map g l) then Rejected
    else match fulfilledValues (map g l) with
         | Some values => Fulfilled values
         | None => Pending
         end.
Proof.
  unfold promiseAll.
  assert (map (fun i => default Pending (JsMap.get i (imap (fun j x => (j, g x)) l)))
              (seq 0 (length l)) = map g l) as ->; [|done].
  rewrite !map_fmap. apply list_eq. intros i. rewrite !list_lookup_fmap.
  destruct (decide (i < length l)) as [Hlt|Hge].
  - rewrite lookup_seq_lt by done. simpl.
    rewrite get_indexed_0.
    destruct (lookup_lt_is_Some_2 l i Hlt) as [x ->]. done.
  - rewrite lookup_seq_ge by lia. rewrite (proj2 (lookup_ge_None l i)) by lia. done.
Qed.

Lemma promiseAll_Permutation {A : Type} (n : nat)
    (states states' : list (nat * Promise A)) :
  JsMap.wf states -> states ≡ₚ states' -> promiseAll n states' = promiseAll n states.
Proof.
  intros Hwf Hperm. unfold promiseAll.
  assert (map (fun i => default Pending (JsMap.get i states')) (seq 0 n)
          = map (fun i => default Pending (JsMap.get i states)) (seq 0 n)) as ->; [|done].
  apply map_ext. intros i. by rewrite (get_Permutation states states' i).
Qed.

(** Whatever the schedule and the store, the result is made of the
    states of the promises, in the order of the providers. *)
Lemma collectCompletions_result (schedule : list nat)
    (ps : list ITerminalCompletionProvider) (h : Heap) :
  (_collectCompletions svc schedule ps shellType promptValue cursorPosition token h).2
  = collected (map state ps).
Proof.
  unfold _collectCompletions.
  set (ips := imap (fun i p => (i, p)) ps).
  assert (imap (fun i provider => (i, run provider)) ps = tasks ips) as ->.
  { unfold tasksOf, ips. by rewrite fmap_imap. }
  assert (length (tasks ips) = length ps) as Hlen
    by (unfold tasksOf, ips; by rewrite length_fmap, length_imap).
  rewrite Hlen.
  pose proof (settleAll_states (length ps) schedule ips h) as Hstates.
  destruct (settleAll (length ps) schedule (tasks ips) h) as [h' states]. simpl in *.
  assert (((fun ip => (ip.1, state ip.2)) <$> ips)
          = imap (fun j p => (j, state p)) ps) as Hips
    by (unfold ips; by rewrite fmap_imap).
  rewrite Hips in Hstates.
  rewrite (promiseAll_Permutation (length ps) (imap (fun j p => (j, state p)) ps) states).
  - rewrite promiseAll_indexed. unfold collected.
    destruct (existsb isRejected (map state ps)); [done|].
    by destruct (fulfilledValues (map state ps)).
  - unfold JsMap.wf. rewrite keys_indexed_0. apply NoDup_seq.
  - symmetry. apply Hstates. unfold ips. by rewrite length_imap.
Qed.

(** *** The states, case by case *)

Lemma promiseState_cases (p : ITerminalCompletionProvider) :
  match state p with
  | Rejected =>
      fails shellType promptValue cursorPosition token p = true
      /\ hangs shellType promptValue cursorPosition token p = false
  | Pending =>
      fails shellType promptValue cursorPosition token p = false
      /\ hangs shellType promptValue cursorPosition token p = true
  | Fulfilled v =>
      fails shellType promptValue cursorPosition token p = false
      /\ hangs shellType promptValue cursorPosition token p = false
      /\ contribution svc shellType promptValue cursorPosition token p = default [] v
  end.
Proof.
  unfold contribution, fails, hangs, promiseState, completionPromise.
  destruct (excludesShell p shellType); [done|].
  destruct (Provider.provideCompletions _ _ _ _) as [|[completions|]|]; try done.
  destruct completions as [items|items [config|]]; try done.
  destruct (_resolveResources _ _ _ _); simpl; [done|].
  by rewrite app_nil_r.
Qed.

Lemma collected_cases (ps : list ITerminalCompletionProvider) :
  collected (map state ps)
  = if existsb (fails shellType promptValue cursorPosition token) ps then Rejected
    else if existsb (hangs shellType promptValue cursorPosition token) ps then Pending
    else Fulfilled
           (flat_map (contribution svc shellType promptValue cursorPosition token) ps).
Proof.
  unfold collected.
  assert (existsb isRejected (map state ps)
          = existsb (fails shellType promptValue cursorPosition token) ps) as ->.
  { induction ps as [|p ps IH]; [done|]. simpl. rewrite IH. f_equal.
    pose proof (promiseState_cases p) as Hcase.
    destruct (state p); simpl; by destruct Hcase as [-> ?]. }
  destruct (existsb (fails _ _ _ _) ps) eqn:Hfails; [done|].
  induction ps as [|p ps IH]; [done|]. simpl in *.
  apply orb_false_iff in Hfails as [Hp Hps]. specialize (IH Hps).
  pose proof (promiseState_cases p) as Hcase.
  destruct (state p) as [|v|]; simpl.
  - destruct Hcase as [_ ->]. done.
  - destruct Hcase as (_ & -> & ->). simpl.
    destruct (fulfilledValues (map state ps)) as [vs|];
      destruct (existsb (hangs _ _ _ _) ps); try done.
    injection IH as <-. f_equal. unfold flatResults. simpl. by destruct v.
  - destruct Hcase as [Hcase _]. congruence.
Qed.

(** *** The labels *)

Lemma modifyLabel_labelled (dev : bool) (providerId : string) (c : Completion.t) :
  labelled dev providerId c = true -> modifyLabel dev providerId c = c.
Proof.
  unfold labelled, modifyLabel. destruct dev; [|done]. simpl. by intros ->.
Qed.

Lemma detailIncludes_setDetail (d providerId : string) (c : Completion.t) :
  detailIncludes (Completion.setDetail d c) providerId
  = JsString.includes d providerId.
Proof. reflexivity. Qed.

Lemma labelled_modifyLabel (dev : bool) (providerId : string) (c : Completion.t) :
  labelled dev providerId (modifyLabel dev providerId c) = true.
Proof.
  unfold labelled, modifyLabel. destruct dev; [|done]. cbn [negb andb orb].
  destruct (detailIncludes c providerId) eqn:E; cbn [negb]; [exact E|].
  rewrite detailIncludes_setDetail.
  apply (JsStringFacts.includes_app_mid "(" providerId).
Qed.

Lemma labelled_modifyLabel_other (dev : bool) (providerId other : string)
    (c : Completion.t) :
  labelled dev providerId c = true ->
  labelled dev providerId (modifyLabel dev other c) = true.
Proof.
  unfold labelled, modifyLabel. destruct dev; [|done]. cbn [negb andb orb].
  destruct (detailIncludes c other); cbn [negb]; [done|].
  rewrite detailIncludes_setDetail. unfold detailIncludes.
  destruct (Completion.detail c) as [d|]; [|done].
  intros Hin. rewrite <- !JsStringFacts.app_assoc.
  by apply JsStringFacts.includes_app_l.
Qed.

Lemma modifyLabel_idemp (dev : bool) (providerId : string) (c : Completion.t) :
  modifyLabel dev providerId (modifyLabel dev providerId c)
  = modifyLabel dev providerId c.
Proof. apply modifyLabel_labelled, labelled_modifyLabel. Qed.

Lemma modifyLabels_cons (dev : bool) (providerId : string) (r : ItemRef)
    (items : list ItemRef) (h : Heap) :
  modifyLabels dev providerId (r :: items) h
  = modifyLabels dev providerId items (alter (modifyLabel dev providerId) r h).
Proof. reflexivity. Qed.

(** Each item of the list is labelled once, however often it occurs in
    it; the other items of the store are left alone. *)
Lemma modifyLabels_lookup (dev : bool) (providerId : string)
    (items : list ItemRef) (h : Heap) (r : ItemRef) :
  modifyLabels dev providerId items h !! r
  = if decide (r ∈ items) then modifyLabel dev providerId <$> h !! r else h !! r.
Proof.
  revert h. induction items as [|x items IH]; intros h.
  - rewrite decide_False by apply not_elem_of_nil. done.
  - rewrite modifyLabels_cons, IH. destruct (decide (r = x)) as [->|Hne].
    + rewrite list_lookup_alter_eq, (decide_True (P := x ∈ x :: items))
        by (apply elem_of_cons; by left).
      destruct (decide (x ∈ items)); [|done].
      destruct (h !! x) as [c|]; [|done]. simpl. by rewrite modifyLabel_idemp.
    + rewrite list_lookup_alter_ne by done.
      destruct (decide (r ∈ items)) as [Hin|Hnotin].
      * rewrite decide_True; [done|]. apply elem_of_cons. by right.
      * rewrite decide_False; [done|]. rewrite elem_of_cons. by intros [?|?].
Qed.

Lemma modifyLabels_allLabelled (dev : bool) (providerId : string)
    (items : list ItemRef) (h : Heap) :
  allLabelled dev providerId items (modifyLabels dev providerId items h).
Proof.
  intros r c Hin. rewrite modifyLabels_lookup, decide_True by done.
  destruct (h !! r) as [c0|]; [|done]. simpl. intros [= <-].
  apply labelled_modifyLabel.
Qed.

Lemma modifyLabels_allLabelled_other (dev : bool) (providerId other : string)
    (items others : list ItemRef) (h : Heap) :
  allLabelled dev providerId items h ->
  allLabelled dev providerId items (modifyLabels dev other others h).
Proof.
  intros Hall r c Hin. rewrite modifyLabels_lookup.
  destruct (decide (r ∈ others)); [|by apply Hall].
  destruct (h !! r) as [c0|] eqn:E; [|done]. simpl. intros [= <-].
  apply labelled_modifyLabel_other. by apply (Hall r).
Qed.

Lemma modifyLabels_id (dev : bool) (providerId : string) (items : list ItemRef)
    (h : Heap) :
  allLabelled dev providerId items h -> modifyLabels dev providerId items h = h.
Proof.
  intros Hall. apply list_eq. intros r. rewrite modifyLabels_lookup.
  destruct (decide (r ∈ items)) as [Hin|]; [|done].
  destruct (h !! r) as [c|] eqn:E; [|done]. simpl.
  by rewrite modifyLabel_labelled by by apply (Hall r).
Qed.

Lemma settled_run (p : ITerminalCompletionProvider) (h : Heap) :
  settled p (run p h).1.
Proof.
  unfold settledIn. rewrite completionPromise_heap.
  destruct (labelling _ _ _ _ p) as [[providerId items]|]; [|done].
  apply modifyLabels_allLabelled.
Qed.

Lemma settled_run_other (p q : ITerminalCompletionProvider) (h : Heap) :
  settled p h -> settled p (run q h).1.
Proof.
  unfold settledIn. rewrite completionPromise_heap.
  destruct (labelling _ _ _ _ p) as [[providerId items]|]; [|done].
  destruct (labelling _ _ _ _ q) as [[other others]|]; [|done].
  apply modifyLabels_allLabelled_other.
Qed.

Lemma settled_run_id (p : ITerminalCompletionProvider) (h : Heap) :
  settled p h -> (run p h).1 = h.
Proof.
  unfold settledIn. rewrite completionPromise_heap.
  destruct (labelling _ _ _ _ p) as [[providerId items]|]; [|done].
  apply modifyLabels_id.
Qed.

(** After all promises have ended, every provider is settled, and a
    provider that was settled before still is. *)
Lemma settleAll_settles (n : nat) (schedule : list nat)
    (ips : list (nat * ITerminalCompletionProvider)) (h : Heap) :
  length ips = n ->
  let h' := (settleAll n schedule (tasks ips) h).1 in
  (forall ip, ip ∈ ips -> settled ip.2 h')
  /\ (forall q, settled q h -> settled q h').
Proof.
  revert schedule ips h. induction n as [|n IH]; intros schedule ips h Hlen.
  - destruct ips; [|done]. simpl. split; [|done]. by intros ip ?%elem_of_nil.
  - destruct (settleAll_tasks_S n schedule ips h Hlen) as (k & ip & Hk & ->).
    simpl.
    destruct (IH (tl schedule) (delete k ips) (run ip.2 h).1) as [Hall Hmono].
    { rewrite length_delete by (by eexists). lia. }
    split.
    + intros ip' Hin. rewrite (delete_Permutation ips k ip Hk) in Hin.
      apply elem_of_cons in Hin as [->|Hin]; [|by apply Hall].
      apply Hmono, settled_run.
    + intros q Hq. by apply Hmono, settled_run_other.
Qed.

(** When every provider is settled, nothing changes in the store. *)
Lemma settleAll_settled (n : nat) (schedule : list nat)
    (ips : list (nat * ITerminalCompletionProvider)) (h : Heap) :
  length ips = n ->
  (forall ip, ip ∈ ips -> settled ip.2 h) ->
  (settleAll n schedule (tasks ips) h).1 = h.
Proof.
  revert schedule ips h. induction n as [|n IH]; intros schedule ips h Hlen Hall.
  - by destruct ips.
  - destruct (settleAll_tasks_S n schedule ips h Hlen) as (k & ip & Hk & ->).
    simpl. rewrite settled_run_id.
    + apply IH; [rewrite length_delete by (by eexists); lia|].
      intros ip' Hin. apply Hall. by apply list_elem_of_delete_inv in Hin.
    + apply Hall. apply list_elem_of_lookup. by exists k.
Qed.

Lemma collectCompletions_heap (schedule : list nat)
    (ps : list ITerminalCompletionProvider) (h : Heap) :
  (_collectCompletions svc schedule ps shellType promptValue cursorPosition token h).1
  = (settleAll (length ps) schedule (tasks (imap (fun i p => (i, p)) ps)) h).1.
Proof.
  unfold _collectCompletions.
  assert (imap (fun i provider => (i, run provider)) ps
          = tasks (imap (fun i p => (i, p)) ps)) as ->
    by (unfold tasksOf; by rewrite fmap_imap).
  assert (length (tasks (imap (fun i p => (i, p)) ps)) = length ps) as ->
    by (unfold tasksOf; by rewrite length_fmap, length_imap).
  by destruct (settleAll _ _ _ _).
Qed.

(** A second collection, right after a first one with the same
    providers, finds all items labelled and changes nothing. *)
Lemma collectCompletions_again (schedule1 schedule2 : list nat)
    (ps : list ITerminalCompletionProvider) (h : Heap) :
  let h1 :=
    (_collectCompletions svc schedule1 ps shellType promptValue cursorPosition token h).1 in
  (_collectCompletions svc schedule2 ps shellType promptValue cursorPosition token h1).1
  = h1.
Proof.
  intros h1. subst h1. rewrite !collectCompletions_heap.
  apply settleAll_settled; [by rewrite length_imap|].
  intros ip Hin.
  destruct (settleAll_settles (length ps) schedule1
              (imap (fun i p => (i, p)) ps) h) as [Hall _];
    [by rewrite length_imap|].
  by apply Hall.
Qed.

(** *** Providers that share no item *)

Local Abbreviation items := (labelledItems shellType promptValue cursorPosition token).
Local Abbreviation touches := (touchesItem shellType promptValue cursorPosition token).

Lemma run_lookup (p : ITerminalCompletionProvider) (h : Heap) (r : ItemRef) :
  (run p h).1 !! r
  = touch svc shellType promptValue cursorPosition token r p <$> h !! r.
Proof.
  rewrite completionPromise_heap. unfold touch, labelledItems, labelling.
  destruct (excludesShell p shellType).
  { rewrite bool_decide_false by apply not_elem_of_nil. by destruct (h !! r). }
  destruct (Provider.provideCompletions _ _ _ _) as [|[completions|]|];
    try (rewrite bool_decide_false by apply not_elem_of_nil; by destruct (h !! r)).
  rewrite modifyLabels_lookup.
  destruct (decide (r ∈ completionItemsOf completions)).
  - by rewrite bool_decide_true.
  - rewrite bool_decide_false by done. by destruct (h !! r).
Qed.

Lemma find_none_iff {A : Type} (f : A -> bool) (l : list A) :
  List.find f l = None <-> forall x, x ∈ l -> f x = false.
Proof.
  induction l as [|y l IH]; simpl.
  - split; [by intros _ x ?%elem_of_nil|done].
  - destruct (f y) eqn:E.
    + split; [done|]. intros Hall. rewrite Hall in E; [done|].
      apply elem_of_cons. by left.
    + rewrite IH. split.
      * intros Hall x [->|Hin]%elem_of_cons; auto.
      * intros Hall x Hin. apply Hall, elem_of_cons. by right.
Qed.

Lemma find_delete {A : Type} (f : A -> bool) (l : list A) (k : nat) (x : A) :
  l !! k = Some x -> f x = false -> List.find f (delete k l) = List.find f l.
Proof.
  revert k. induction l as [|y l IH]; intros k Hk Hx; [done|].
  destruct k as [|k]; simpl in *.
  - injection Hk as ->. by rewrite Hx.
  - destruct (f y); [done|]. by apply IH.
Qed.

Lemma find_some_elem {A : Type} (f : A -> bool) (l : list A) (x : A) :
  List.find f l = Some x -> x ∈ l /\ f x = true.
Proof.
  intros [Hin Hf]%find_some. by rewrite list_elem_of_In.
Qed.

(** With no item shared, what happens to an item does not depend on the
    order in which the promises end. *)
Lemma settleAll_lookup (n : nat) (schedule : list nat)
    (ips : list (nat * ITerminalCompletionProvider)) (h : Heap) (r : ItemRef) :
  length ips = n ->
  NoDup ips ->
  (forall ip ip', ip ∈ ips -> ip' ∈ ips ->
                  touches r ip = true -> touches r ip' = true -> ip = ip') ->
  (settleAll n schedule (tasks ips) h).1 !! r
  = touchOnce svc shellType promptValue cursorPosition token r ips <$> h !! r.
Proof.
  revert schedule ips h. induction n as [|n IH]; intros schedule ips h Hlen Hnd Huniq.
  - destruct ips; [|done]. simpl. by destruct (h !! r).
  - destruct (settleAll_tasks_S n schedule ips h Hlen) as (k & ip & Hk & ->).
    simpl. pose proof (delete_Permutation ips k ip Hk) as Hperm.
    assert (NoDup (ip :: delete k ips)) as [Hnotin Hnd']%NoDup_cons
      by by rewrite <- Hperm.
    rewrite IH; [|rewrite length_delete by (by eexists); lia|done|].
    + rewrite run_lookup. destruct (h !! r) as [c|]; [|done]. simpl. f_equal.
      unfold touchOnce. destruct (touches r ip) eqn:Htouch.
      * assert (List.find (touches r) (delete k ips) = None) as ->.
        { apply find_none_iff. intros ip' Hin.
          destruct (touches r ip') eqn:Htouch'; [|done].
          assert (ip' = ip) as ->; [|done].
          apply Huniq; [|by apply list_elem_of_lookup; exists k|done|done].
          by apply list_elem_of_delete_inv in Hin. }
        destruct (List.find (touches r) ips) as [ip'|] eqn:Hfind.
        -- apply find_some_elem in Hfind as [Hin Htouch'].
           by rewrite (Huniq ip' ip Hin (proj2 (list_elem_of_lookup _ _) (ex_intro _ k Hk))
                         Htouch' Htouch).
        -- rewrite find_none_iff in Hfind.
           rewrite (Hfind ip) in Htouch; [done|]. apply list_elem_of_lookup. by exists k.
      * rewrite (find_delete (touches r) ips k ip Hk Htouch).
        assert (touch svc shellType promptValue cursorPosition token r ip.2 c = c)
          as -> by (unfold touch; unfold touchesItem in Htouch; by rewrite Htouch).
        done.
    + intros ip1 ip2 Hin1 Hin2. apply Huniq; by eapply list_elem_of_delete_inv.
Qed.

Lemma indexed_NoDup {A : Type} (l : list A) : NoDup (imap (fun i x => (i, x)) l).
Proof.
  apply NoDup_alt. intros i j [k x] Hi Hj.
  rewrite list_lookup_imap in Hi. rewrite list_lookup_imap in Hj.
  destruct (l !! i); [|done]. destruct (l !! j); [|done].
  simpl in *. congruence.
Qed.

Lemma collectCompletions_schedule (schedule : list nat)
    (ps : list ITerminalCompletionProvider) (h : Heap) :
  noSharedItems shellType promptValue cursorPosition token ps ->
  _collectCompletions svc schedule ps shellType promptValue cursorPosition token h
  = _collectCompletions svc [] ps shellType promptValue cursorPosition token h.
Proof.
  intros Hshare.
  assert (forall sched,
            (_collectCompletions svc sched ps shellType promptValue cursorPosition
               token h).1
            = (_collectCompletions svc [] ps shellType promptValue cursorPosition
                 token h).1) as Hheap.
  { intros sched. rewrite !collectCompletions_heap. apply list_eq. intros r.
    rewrite !settleAll_lookup; try done; try (by rewrite length_imap);
      try apply indexed_NoDup.
    all: intros [i p] [j q] Hin1 Hin2 Ht1 Ht2;
      apply list_elem_of_lookup in Hin1 as [i' Hin1];
      apply list_elem_of_lookup in Hin2 as [j' Hin2];
      rewrite list_lookup_imap in Hin1; rewrite list_lookup_imap in Hin2;
      destruct (ps !! i') as [p'|] eqn:Ei; [|done];
      destruct (ps !! j') as [q'|] eqn:Ej; [|done];
      simpl in *; injection Hin1 as <- <-; injection Hin2 as <- <-;
      unfold touchesItem in Ht1, Ht2;
      apply bool_decide_eq_true in Ht1; apply bool_decide_eq_true in Ht2;
      simpl in *;
      assert (i' = j') as <- by (by eapply Hshare);
      congruence. }
  apply injective_projections; [apply Hheap|].
  by rewrite !collectCompletions_result.
Qed.
End collection.

(** ** Registration and disposal *)

Section registration.
Import JsMap JsMapFacts.

Lemma providersGenerator_entries (r : Registry) :
  _providersGenerator r = map snd (entries r).
Proof.
  unfold _providersGenerator, entries, values.
  induction r as [|[e m] r IH]; simpl; [done|].
  rewrite map_app, IH. f_equal.
  clear. induction m as [|[i q] m IHm]; simpl; [done|]. by rewrite IHm.
Qed.

(** C4: a second registration under the (namespaceId, providerId) of a
    first one replaces it. After both, the registry of the service has
    exactly one entry under that pair, the second provider; the
    generator yields as many providers as after the first registration;
    and no two of the entries it goes through have the same pair of
    keys. *)
Theorem register_same_key_replaces
    (store : ProviderStore) (svc : TerminalCompletionService)
    (ext id : string) (a b : ProviderRef) (charsA charsB : list string) :
  Reachable (_providers svc) ->
  let '(store1, svc1, _) :=
    registerTerminalCompletionProvider ext id a charsA store svc in
  let '(_, svc2, _) :=
    registerTerminalCompletionProvider ext id b charsB store1 svc1 in
  entriesUnder ext id (_providers svc2) = [((ext, id), b)]
  /\ length (_providersGenerator (_providers svc2))
     = length (_providersGenerator (_providers svc1))
  /\ _providersGenerator (_providers svc2) = map snd (entries (_providers svc2))
  /\ NoDup (map fst (entries (_providers svc2))).
Proof.
  intros Hr. simpl.
  set (r1 := registerInRegistry ext id a (_providers svc)).
  assert (Reachable r1) as Hr1 by by constructor.
  assert (registryInv (registerInRegistry ext id b r1)) as Hinv2
    by by apply Reachable_inv; constructor.
  split_and!.
  - apply entriesUnder_lookup; [done|]. apply lookupProvider_register.
  - rewrite count_register. subst r1. by rewrite lookupProvider_register.
  - apply providersGenerator_entries.
  - by apply NoDup_keys_entries.
Qed.

Lemma register_same_key_replaces_witness :
  Reachable (_providers (newService true false noFiles))
  /\ let '(store1, svc1, _) :=
       registerTerminalCompletionProvider "ext" "git" 0 ["-"] twoProviders
         (newService true false noFiles) in
     let '(_, svc2, _) :=
       registerTerminalCompletionProvider "ext" "git" 1 ["/"] store1 svc1 in
     entriesUnder "ext" "git" (_providers svc2) = [(("ext", "git"), 1)]
     /\ length (_providersGenerator (_providers svc2))
        = length (_providersGenerator (_providers svc1))
     /\ _providersGenerator (_providers svc2) = map snd (entries (_providers svc2))
     /\ NoDup (map fst (entries (_providers svc2))).
Proof.
  split; [apply reachable_new|].
  apply (register_same_key_replaces twoProviders (newService true false noFiles)
           "ext" "git" 0 1 ["-"] ["/"]).
  apply reachable_new.
Defined.

(** C5, as the code has it: registering and then invoking the returned
    handle. With N providers before: after the registration there are
    N + 1 when the pair of keys was free, and N when it was taken (the
    entry is replaced); after the disposal there is one less, and
    nothing is stored under the pair. The entry of the extension is
    removed exactly when its map has become empty. Invoking the handle
    again changes nothing, whatever the service holds by then: the
    handle has been invoked, and stays so, and the function of lines
    114-120 is not run again (run once more right away, it would find
    nothing to remove). *)
Theorem register_then_dispose
    (store : ProviderStore) (svc : TerminalCompletionService)
    (ext id : string) (p : ProviderRef) (chars : list string) :
  Reachable (_providers svc) ->
  let n := length (_providersGenerator (_providers svc)) in
  let '(_, svc1, d) :=
    registerTerminalCompletionProvider ext id p chars store svc in
  let svc2 := dispose d svc1 in
  let d' := afterDispose d in
  length (_providersGenerator (_providers svc1))
  = match lookupProvider ext id (_providers svc) with
    | None => S n
    | Some _ => n
    end
  /\ S (length (_providersGenerator (_providers svc2)))
     = length (_providersGenerator (_providers svc1))
  /\ lookupProvider ext id (_providers svc2) = None
  /\ get ext (_providers svc2)
     = (let extMap := delete id (default empty (get ext (_providers svc))) in
        if (size extMap =? 0)%nat then None else Some extMap)
  /\ (forall svc', dispose d' svc' = svc')
  /\ afterDispose d' = d'
  /\ disposeInRegistry d (_providers svc2) = _providers svc2.
Proof.
  intros Hr. simpl.
  set (r := _providers svc) in *.
  set (r1 := registerInRegistry ext id p r).
  assert (registryInv r1) as Hinv1 by by apply Reachable_inv; constructor.
  split_and!.
  - apply count_register.
  - pose proof (count_dispose ext id r1 Hinv1) as Hc.
    subst r1. by rewrite lookupProvider_register in Hc.
  - apply lookupProvider_dispose.
  - rewrite get_dispose. subst r1. rewrite registerInRegistry_eq.
    by rewrite get_set_eq, delete_set.
  - done.
  - done.
  - apply dispose_idemp.
Qed.

Lemma register_then_dispose_witness :
  Reachable (_providers (newService true false noFiles))
  /\ let n := length (_providersGenerator (_providers (newService true false noFiles))) in
     let '(_, svc1, d) :=
       registerTerminalCompletionProvider "ext" "git" 0 ["-"] twoProviders
         (newService true false noFiles) in
     let svc2 := dispose d svc1 in
     let d' := afterDispose d in
     length (_providersGenerator (_providers svc1))
     = match lookupProvider "ext" "git" (_providers (newService true false noFiles)) with
       | None => S n
       | Some _ => n
       end
     /\ S (length (_providersGenerator (_providers svc2)))
        = length (_providersGenerator (_providers svc1))
     /\ lookupProvider "ext" "git" (_providers svc2) = None
     /\ get "ext" (_providers svc2)
        = (let extMap :=
             delete "git"
               (default empty (get "ext" (_providers (newService true false noFiles)))) in
           if (size extMap =? 0)%nat then None else Some extMap)
     /\ (forall svc', dispose d' svc' = svc')
     /\ afterDispose d' = d'
     /\ disposeInRegistry d (_providers svc2) = _providers svc2.
Proof.
  split; [apply reachable_new|].
  apply (register_then_dispose twoProviders (newService true false noFiles) "ext" "git" 0 ["-"]).
  apply reachable_new.
Defined.

(** C5, as stated, fails for a registration under a pair of keys that
    is taken: the registry is one that the service can have, it yields
    one provider before the registration and still one after it, not
    two, and none after the disposal. *)
Lemma register_taken_key_counts :
  let svc0 :=
    (registerTerminalCompletionProvider "ext" "git" 0 ["-"] twoProviders
       (newService true false noFiles)).1.2 in
  let '(_, svc1, d) :=
    registerTerminalCompletionProvider "ext" "git" 1 ["-"] twoProviders svc0 in
  Reachable (_providers svc0)
  /\ length (_providersGenerator (_providers svc0)) = 1
  /\ length (_providersGenerator (_providers svc1)) = 1
  /\ length (_providersGenerator (_providers svc1))
     <> S (length (_providersGenerator (_providers svc0)))
  /\ length (_providersGenerator (_providers (dispose d svc1))) = 0.
Proof.
  simpl. split_and!; try done.
  apply (reachable_register "ext" "git" 0 empty), reachable_new.
Qed.

(** A handle that has been invoked does not touch a later registration
    under its pair of keys: [git] is registered and its handle invoked,
    [git] is registered again, and a second invocation of the first
    handle leaves the new entry where it is. *)
Example spent_handle_keeps_later_registration :
  let '(store1, svc1, d) :=
    registerTerminalCompletionProvider "ext" "git" 0 ["-"] twoProviders
      (newService true false noFiles) in
  let svc2 := dispose d svc1 in
  let d' := afterDispose d in
  let '(_, svc3, _) :=
    registerTerminalCompletionProvider "ext" "git" 1 ["-"] store1 svc2 in
  lookupProvider "ext" "git" (_providers svc2) = None
  /\ lookupProvider "ext" "git" (_providers svc3) = Some 1
  /\ dispose d' svc3 = svc3.
Proof. repeat split. Qed.

(** C10: the handle of a registration removes whatever is stored under
    its pair of keys. After A and then B are registered under the same
    pair, B is what is stored there; invoking the handle that the
    registration of A returned leaves nothing under the pair, and the
    generator yields one provider less. *)
Theorem stale_handle_removes_replacement
    (store : ProviderStore) (svc : TerminalCompletionService)
    (ext id : string) (a b : ProviderRef) (charsA charsB : list string) :
  Reachable (_providers svc) ->
  let '(store1, svc1, dA) :=
    registerTerminalCompletionProvider ext id a charsA store svc in
  let '(_, svc2, _) :=
    registerTerminalCompletionProvider ext id b charsB store1 svc1 in
  lookupProvider ext id (_providers svc2) = Some b
  /\ entriesUnder ext id (_providers svc2) = [((ext, id), b)]
  /\ lookupProvider ext id (_providers (dispose dA svc2)) = None
  /\ entriesUnder ext id (_providers (dispose dA svc2)) = []
  /\ S (length (_providersGenerator (_providers (dispose dA svc2))))
     = length (_providersGenerator (_providers svc2)).
Proof.
  intros Hr. simpl.
  set (r1 := registerInRegistry ext id a (_providers svc)).
  set (r2 := registerInRegistry ext id b r1).
  assert (Reachable r2) as Hr2 by by do 2 constructor.
  pose proof (Reachable_inv _ Hr2) as Hinv2.
  assert (registryInv (disposeInRegistry (toDisposable ext id) r2)) as Hinv3
    by by apply Reachable_inv; constructor.
  split_and!.
  - apply lookupProvider_register.
  - apply entriesUnder_lookup; [done|]. apply lookupProvider_register.
  - apply lookupProvider_dispose.
  - apply entriesUnder_None; [done|]. apply lookupProvider_dispose.
  - pose proof (count_dispose ext id r2 Hinv2) as Hc.
    subst r2. by rewrite lookupProvider_register in Hc.
Qed.

Lemma stale_handle_removes_replacement_witness :
  Reachable (_providers (newService true false noFiles))
  /\ let '(store1, svc1, dA) :=
       registerTerminalCompletionProvider "ext" "git" 0 ["-"] twoProviders
         (newService true false noFiles) in
     let '(_, svc2, _) :=
       registerTerminalCompletionProvider "ext" "git" 1 ["/"] store1 svc1 in
     lookupProvider "ext" "git" (_providers svc2) = Some 1
     /\ entriesUnder "ext" "git" (_providers svc2) = [(("ext", "git"), 1)]
     /\ lookupProvider "ext" "git" (_providers (dispose dA svc2)) = None
     /\ entriesUnder "ext" "git" (_providers (dispose dA svc2)) = []
     /\ S (length (_providersGenerator (_providers (dispose dA svc2))))
        = length (_providersGenerator (_providers svc2)).
Proof.
  split; [apply reachable_new|].
  apply (stale_handle_removes_replacement twoProviders (newService true false noFiles)
           "ext" "git" 0 1 ["-"] ["/"]).
  apply reachable_new.
Defined.
End registration.

(** ** Selection by trigger character *)

Section selection.
Import JsString JsStringFacts.

Lemma existsb_elem {A : Type} (f : A -> bool) (l : list A) :
  existsb f l = true <-> exists x, x ∈ l /\ f x = true.
Proof.
  rewrite existsb_exists. split; intros (x & Hin & Hf); exists x.
  - by rewrite list_elem_of_In.
  - by rewrite <- list_elem_of_In.
Qed.

Lemma elem_of_filter_bool {A : Type} (f : A -> bool) (l : list A) (x : A) :
  x ∈ List.filter f l <-> x ∈ l /\ f x = true.
Proof. by rewrite !list_elem_of_In, filter_In. Qed.

(** C6: with the trigger-character flag set, the providers selected at
    lines 132-144 are the registered providers that have a trigger
    character with which the prompt up to the cursor ends, each
    character tried on its own, in the order of the generator; a provider
    without trigger characters is not among them. These are the
    candidates, up to the policy on extension completions applied next. *)
Theorem trigger_character_selection
    (store : ProviderStore) (svc : TerminalCompletionService)
    (promptValue : string) (cursorPosition : Z) :
  let upToCursor := substring0 promptValue cursorPosition in
  let selected := providersToRequest promptValue cursorPosition (providers store svc) in
  candidates store svc promptValue cursorPosition true
  = (if enableExtensionCompletions (_configurationService svc) then selected
     else List.filter isBuiltinTruthy selected)
  /\ selected
     = List.filter
         (fun p => existsb (endsWith upToCursor) (default [] (Provider.triggerCharacters p)))
         (providers store svc)
  /\ (forall p,
        p ∈ selected
        <-> p ∈ providers store svc
            /\ exists char before,
                 char ∈ default [] (Provider.triggerCharacters p)
                 /\ upToCursor = before +:+ char)
  /\ (forall p, p ∈ selected -> default [] (Provider.triggerCharacters p) <> []).
Proof.
  intros upToCursor selected.
  assert (forall p,
            match Provider.triggerCharacters p with
            | None => false
            | Some chars => existsb (fun char => endsWith upToCursor char) chars
            end
            = existsb (endsWith upToCursor) (default [] (Provider.triggerCharacters p)))
    as Hsame by (intros p; by destruct (Provider.triggerCharacters p)).
  assert (selected
          = List.filter
              (fun p => existsb (endsWith upToCursor)
                          (default [] (Provider.triggerCharacters p)))
              (providers store svc)) as Hsel
    by (subst selected; unfold providersToRequest; by apply List.filter_ext).
  split_and!.
  - unfold candidates. by destruct (enableExtensionCompletions _).
  - exact Hsel.
  - intros p. rewrite Hsel, elem_of_filter_bool, existsb_elem.
    split.
    + intros [Hin (char & Hchar & Hends)]. split; [done|].
      apply endsWith_spec in Hends as [before Hends]. by exists char, before.
    + intros [Hin (char & before & Hchar & Heq)]. split; [done|].
      exists char. split; [done|]. apply endsWith_spec. by exists before.
  - intros p. rewrite Hsel, elem_of_filter_bool. intros [_ Hex] Hnil.
    by rewrite Hnil in Hex.
Qed.

(** A provider with the trigger characters [-] and [/] is selected when
    the prompt up to the cursor ends with one of them, and only then. *)
Example trigger_dash_or_slash :
  let p := Provider.stamp ["-"; "/"] "git" silentProvider in
  providersToRequest "git -" 5 [p] = [p]
  /\ providersToRequest "cd src/" 7 [p] = [p]
  /\ providersToRequest "cd src/" 6 [p] = []
  /\ providersToRequest "git a" 5 [p] = []
  /\ providersToRequest "git -" 5 [Provider.stamp [] "git" silentProvider] = []
  /\ providersToRequest "git -" 5 [silentProvider] = [].
Proof. repeat split. Qed.
End selection.

(** ** Resolution of file and folder completions *)

Section resolution.
Context `{URI.Impl}.

Lemma parentCwd_ne (cwd : URI.t) (pathSeparator : string) :
  parentCwd cwd pathSeparator <> cwd.
Proof.
  intros Heq. apply (f_equal URI.ref) in Heq. simpl in Heq. lia.
Qed.

(** Whatever the two URIs denote, the map has an entry for each. *)
Lemma dirToPrefixMap_entries (cwd : URI.t) (pathSeparator : string) :
  dirToPrefixMap cwd pathSeparator
  = [(cwd, "."); (parentCwd cwd pathSeparator, "..")].
Proof.
  unfold dirToPrefixMap. simpl.
  rewrite decide_False; [done|]. intros Heq. by apply (parentCwd_ne cwd pathSeparator).
Qed.

Lemma resolveDirs_cons (fs : IFileService) (folders files : bool) (cwd : URI.t)
    (cursorPosition : Z) (lastWord : string) (dir : URI.t) (prefix : string)
    (dirs : list (URI.t * string)) (acc : list Completion.t) :
  resolveDirs fs folders files cwd cursorPosition lastWord ((dir, prefix) :: dirs) acc
  = match childrenOf fs dir with
    | Some children =>
        resolveDirs fs folders files cwd cursorPosition lastWord dirs
          (acc ++ childCompletions folders files cwd cursorPosition lastWord prefix children)
    | None => None
    end.
Proof. unfold childrenOf. simpl. by destruct (resolve fs dir). Qed.

Lemma resolveDirs_None_further (fs : IFileService) (folders files : bool)
    (cwd : URI.t) (cursorPosition : Z) (lastWord : string)
    (dirs : list (URI.t * string)) (acc : list Completion.t) :
  (exists dir prefix, (dir, prefix) ∈ dirs /\ childrenOf fs dir = None) ->
  resolveDirs fs folders files cwd cursorPosition lastWord dirs acc = None.
Proof.
  revert acc. induction dirs as [|[d p] dirs IH]; intros acc (dir & prefix & Hin & Hnone).
  - by apply elem_of_nil in Hin.
  - rewrite resolveDirs_cons. apply elem_of_cons in Hin as [[= <- <-]|Hin].
    + by rewrite Hnone.
    + destruct (childrenOf fs d); [|done]. apply IH. by exists dir, prefix.
Qed.

(** C3, as the code has it: the map from directory to prefix is keyed by
    the URI objects, and the URI of the parent is a new object, so the map
    always has the two entries [cwd] and [parentCwd], in this order, also
    when both denote the same location. When both listings succeed, the
    result holds the completions for the children of [cwd] with prefix
    [.] followed by those for the children of [parentCwd] with prefix
    [..]. *)
Theorem resolveResources_lists_both_directories
    (svc : TerminalCompletionService) (config : TerminalResourceRequestConfig)
    (promptValue : string) (cursorPosition : Z)
    (cwd : URI.t) (children1 children2 : list IFileStat) :
  ResourceRequestConfig.cwd config = Some cwd ->
  childrenOf (_fileService svc) cwd = Some children1 ->
  childrenOf (_fileService svc)
    (parentCwd cwd (ResourceRequestConfig.pathSeparator config)) = Some children2 ->
  let folders := default false (ResourceRequestConfig.foldersRequested config) in
  let files := default false (ResourceRequestConfig.filesRequested config) in
  let completionsFor :=
    childCompletions folders files cwd cursorPosition
      (lastWordOf promptValue cursorPosition) in
  dirToPrefixMap cwd (ResourceRequestConfig.pathSeparator config)
  = [(cwd, "."); (parentCwd cwd (ResourceRequestConfig.pathSeparator config), "..")]
  /\ _resolveResources svc config promptValue cursorPosition
     = if negb folders && negb files then None
       else
         let all := completionsFor "." children1 ++ completionsFor ".." children2 in
         if (length all =? 0)%nat then None else Some all.
Proof.
  intros Hcwd Hc1 Hc2 folders files completionsFor.
  split; [apply dirToPrefixMap_entries|].
  unfold _resolveResources, URI.revive. rewrite Hcwd.
  fold folders files. destruct (negb folders && negb files); [done|].
  rewrite dirToPrefixMap_entries, resolveDirs_cons, Hc1, resolveDirs_cons, Hc2. done.
Qed.

(** C8, as the code has it: when the listing of the working directory
    or of its parent fails, [_resolveResources] returns [undefined], and
    the promise of a provider whose list asks for resources is fulfilled
    with exactly the items of the list. What [provideCompletions] then
    returns, the provider being one of the candidates: if another
    candidate that is invoked throws or is rejected, the request is
    rejected and nothing is returned; if one never answers, neither does
    the request; otherwise the result holds the items of the provider,
    in their order, between what the candidates before it and after it
    contribute. *)
Theorem listing_failure_keeps_provider_items
    (store : ProviderStore) (svc : TerminalCompletionService)
    (schedule : list nat) (config : TerminalResourceRequestConfig)
    (promptValue : string) (cursorPosition : Z) (cwd : URI.t)
    (shellType : TerminalShellType) (token : CancellationToken)
    (triggerCharacter : bool)
    (provider : ITerminalCompletionProvider) (items : option (list ItemRef))
    (before after : list ITerminalCompletionProvider) (h : Heap) :
  ResourceRequestConfig.cwd config = Some cwd ->
  childrenOf (_fileService svc) cwd = None
  \/ childrenOf (_fileService svc)
       (parentCwd cwd (ResourceRequestConfig.pathSeparator config)) = None ->
  candidates store svc promptValue cursorPosition triggerCharacter
  = before ++ provider :: after ->
  excludesShell provider shellType = false ->
  Provider.provideCompletions provider promptValue cursorPosition token
  = Fulfilled (Some (TerminalCompletionList items (Some config))) ->
  _resolveResources svc config promptValue cursorPosition = None
  /\ (completionPromise svc shellType promptValue cursorPosition token provider h).2
     = Fulfilled (Some (map Ref (default [] items)))
  /\ (provideCompletions store svc schedule promptValue cursorPosition shellType
        token triggerCharacter h).2
     = if existsb (fails shellType promptValue cursorPosition token) (before ++ after)
       then Rejected
       else if existsb (hangs shellType promptValue cursorPosition token)
                 (before ++ after)
       then Pending
       else Fulfilled
              (flat_map (contribution svc shellType promptValue cursorPosition token)
                 before
               ++ map Ref (default [] items)
               ++ flat_map (contribution svc shellType promptValue cursorPosition token)
                    after).
Proof.
  intros Hcwd Hfail Hcand Hshell Hp.
  assert (_resolveResources svc config promptValue cursorPosition = None) as Hres.
  { unfold _resolveResources, URI.revive. rewrite Hcwd.
    destruct (negb _ && negb _); [done|].
    rewrite resolveDirs_None_further; [done|].
    rewrite dirToPrefixMap_entries. destruct Hfail as [Hfail|Hfail].
    - exists cwd, ".". split; [|done]. apply elem_of_cons. by left.
    - eexists _, "..". split; [|exact Hfail].
      apply elem_of_cons. right. apply elem_of_cons. by left. }
  split; [done|]. split.
  { unfold completionPromise. by rewrite Hshell, Hp, Hres. }
  unfold provideCompletions.
  rewrite collectCompletions_result, collected_cases, Hcand.
  assert (fails shellType promptValue cursorPosition token provider = false) as Hf
    by (unfold fails; by rewrite Hp, andb_false_r).
  assert (hangs shellType promptValue cursorPosition token provider = false) as Hh
    by (unfold hangs; by rewrite Hp, andb_false_r).
  assert (contribution svc shellType promptValue cursorPosition token provider
          = map Ref (default [] items)) as Hc
    by (unfold contribution; rewrite Hshell, Hp, Hres; simpl; by rewrite app_nil_r).
  rewrite !existsb_app. simpl. rewrite Hf, Hh. simpl.
  rewrite flat_map_app. simpl. by rewrite Hc.
Qed.
End resolution.

Lemma listing_failure_keeps_provider_items_witness :
  let config := requestAll (fileUri 0 "/home/u") in
  let '(store, svc) :=
    withThree (arrayProvider [0]) (listProvider (Some [1]) (Some config))
      (arrayProvider [2]) false in
  let provider := Provider.stamp [] "two" (listProvider (Some [1]) (Some config)) in
  let before := [Provider.stamp [] "one" (arrayProvider [0])] in
  let after := [Provider.stamp [] "three" (arrayProvider [2])] in
  let h := [item "add" None; item "status" None; item "stash" None] in
  candidates store svc "git " 4 false = before ++ provider :: after
  /\ @_resolveResources posixUri svc config "git " 4 = None
  /\ (@completionPromise posixUri svc "bash" "git " 4 false provider h).2
     = Fulfilled (Some (map Ref (default [] (Some [1]))))
  /\ (@provideCompletions posixUri store svc [2; 0] "git " 4 "bash" false false h).2
     = (if existsb (fails "bash" "git " 4 false) (before ++ after) then Rejected
        else if existsb (hangs "bash" "git " 4 false) (before ++ after) then Pending
        else Fulfilled
               (flat_map (@contribution posixUri svc "bash" "git " 4 false) before
                ++ map Ref (default [] (Some [1]))
                ++ flat_map (@contribution posixUri svc "bash" "git " 4 false) after))
  /\ (@provideCompletions posixUri store svc [2; 0] "git " 4 "bash" false false h).2
     = Fulfilled [Ref 0; Ref 1; Ref 2].
Proof.
  destruct (@listing_failure_keeps_provider_items posixUri
              (withThree (arrayProvider [0])
                 (listProvider (Some [1]) (Some (requestAll (fileUri 0 "/home/u"))))
                 (arrayProvider [2]) false).1
              (withThree (arrayProvider [0])
                 (listProvider (Some [1]) (Some (requestAll (fileUri 0 "/home/u"))))
                 (arrayProvider [2]) false).2
              [2; 0] (requestAll (fileUri 0 "/home/u")) "git " 4%Z
              (fileUri 0 "/home/u") "bash" false false
              (Provider.stamp [] "two"
                 (listProvider (Some [1]) (Some (requestAll (fileUri 0 "/home/u")))))
              (Some [1])
              [Provider.stamp [] "one" (arrayProvider [0])]
              [Provider.stamp [] "three" (arrayProvider [2])]
              [item "add" None; item "status" None; item "stash" None])
    as (Hresolve & Hpromise & Hresult);
    [reflexivity|left; reflexivity|reflexivity|reflexivity|reflexivity|].
  split; [reflexivity|]. split; [exact Hresolve|]. split; [exact Hpromise|].
  split; [exact Hresult|reflexivity].
Defined.

Lemma resolveResources_lists_both_directories_witness :
  let config := requestAll (fileUri 0 "/home/u") in
  let svc := newService true false homeOfU in
  ResourceRequestConfig.cwd config = Some (fileUri 0 "/home/u")
  /\ @dirToPrefixMap posixUri (fileUri 0 "/home/u") "/"
     = [(fileUri 0 "/home/u", "."); (fileUri 1 "/home", "..")]
  /\ option_map (map Completion.label) (@_resolveResources posixUri svc config "cd " 3)
     = Some ["./proj"; "./a.txt"; ".."].
Proof.
  split; [reflexivity|].
  destruct (@resolveResources_lists_both_directories posixUri
              (newService true false homeOfU) (requestAll (fileUri 0 "/home/u"))
              "cd " 3%Z (fileUri 0 "/home/u") _ _
              eq_refl eq_refl eq_refl) as [Hmap Hres].
  split; [exact Hmap|]. rewrite Hres. reflexivity.
Defined.

(** C3, as stated, fails in the root case. The working directory is [/];
    its parent is computed as [/] too, with the same scheme, path and
    file system path. The map nevertheless has two entries, the root is
    listed for each, and its one child is contributed twice, under the
    prefix [.] and under the prefix [..]. *)
Lemma root_directory_listed_twice :
  let cwd := fileUri 0 "/" in
  let parent := @parentCwd posixUri cwd "/" in
  let svc := newService true false rootWithOneFolder in
  (URI.scheme parent, URI.path parent, URI.fsPath parent)
  = (URI.scheme cwd, URI.path cwd, URI.fsPath cwd)
  /\ JsMap.size (@dirToPrefixMap posixUri cwd "/") = 2
  /\ option_map (map Completion.label)
       (@_resolveResources posixUri svc (requestAll cwd) "ls " 3)
     = Some [".a"; "..a"].
Proof. repeat split. Qed.

(** ** The result of a request *)

Section requests.
Context `{URI.Impl}.

(** C1, as the code has it: nothing guards the call of a provider. If a
    candidate that is invoked throws, or its promise is rejected, the
    promise of [provideCompletions] is rejected and no result is
    returned. Otherwise, once all providers have answered, the result is
    what the candidates contribute, one after the other in their order;
    a candidate left out for its shell types or answering [undefined]
    contributes nothing. The order in which the promises end plays no
    part. *)
Theorem rejection_reaches_the_caller
    (store : ProviderStore) (svc : TerminalCompletionService)
    (schedule : list nat) (promptValue : string) (cursorPosition : Z)
    (shellType : TerminalShellType) (token : CancellationToken)
    (triggerCharacter : bool) (h : Heap) :
  (provideCompletions store svc schedule promptValue cursorPosition shellType
     token triggerCharacter h).2
  = let ps := candidates store svc promptValue cursorPosition triggerCharacter in
    if existsb (fails shellType promptValue cursorPosition token) ps then Rejected
    else if existsb (hangs shellType promptValue cursorPosition token) ps then Pending
    else Fulfilled
           (flat_map (contribution svc shellType promptValue cursorPosition token) ps).
Proof.
  unfold provideCompletions. rewrite collectCompletions_result. apply collected_cases.
Qed.


Lemma collectCompletions_dev_off (svc : TerminalCompletionService)
    (schedule : list nat) (ps : list ITerminalCompletionProvider)
    (shellType : TerminalShellType) (promptValue : string) (cursorPosition : Z)
    (token : CancellationToken) (h : Heap) :
  devMode (_configurationService svc) = false ->
  (_collectCompletions svc schedule ps shellType promptValue cursorPosition token h).1
  = h.
Proof.
  intros Hdev. rewrite collectCompletions_heap.
  apply settleAll_settled; [by rewrite length_imap|].
  intros ip _. unfold settledIn.
  destruct (labelling _ _ _ _ _) as [[providerId items]|]; [|done].
  intros r c _ _. unfold labelled. by rewrite Hdev.
Qed.

End requests.


(** With dev mode on, an item without detail from the provider [git]
    gets the detail [(git) ], once; an item whose detail mentions [git]
    keeps it; with dev mode off nothing changes. *)
Example dev_mode_git :
  let provider := Provider.stamp [] "git" (arrayProvider [0; 0; 1]) in
  let h := [item "status" None; item "stash" (Some "git stash")] in
  map Completion.detail
    (@completionPromise posixUri (newService true true noFiles)
       "bash" "git s" 5 false provider h).1
  = [Some "(git) "; Some "git stash"]
  /\ map Completion.detail
       (@completionPromise posixUri (newService true false noFiles)
          "bash" "git s" 5 false provider h).1
     = [None; Some "git stash"].
Proof. split; reflexivity. Qed.

(** C1, as stated, fails: three providers are registered, the second
    throws, and the request is rejected. Had the second answered
    [undefined], the result would have been the item of the first
    followed by the item of the third. *)
Lemma second_of_three_throws :
  let h := [item "one" None; item "three" None] in
  let '(store, svc) :=
    withThree (arrayProvider [0]) throwingProvider (arrayProvider [1]) false in
  let '(store', svc') :=
    withThree (arrayProvider [0]) silentProvider (arrayProvider [1]) false in
  map Provider.id (providers store svc) = ["one"; "two"; "three"]
  /\ (@provideCompletions posixUri store svc [] "g" 1 "bash" false false h).2
     = Rejected
  /\ (@provideCompletions posixUri store' svc' [] "g" 1 "bash" false false h).2
     = Fulfilled [Ref 0; Ref 1].
Proof. repeat split. Qed.

(** C2 at work: a provider answers with a completion list that has items
    and no resource request. Its items are labelled (dev mode is on), but
    line 185 returns [undefined] and the provider contributes nothing;
    the same items in an array, or in a list with a resource request,
    are contributed. *)
Lemma completion_list_without_resource_request :
  let h := [item "status" None] in
  let svc := newService true true noFiles in
  let config := requestAll (fileUri 0 "/home/u") in
  @completionPromise posixUri svc "bash" "git " 4 false
    (Provider.stamp [] "git" (listProvider (Some [0]) None)) h
  = ([item "status" (Some "(git) ")], Fulfilled None)
  /\ (@_collectCompletions posixUri svc []
        [Provider.stamp [] "git" (listProvider (Some [0]) None)]
        "bash" "git " 4 false h).2
     = Fulfilled []
  /\ (@_collectCompletions posixUri svc []
        [Provider.stamp [] "git" (arrayProvider [0])] "bash" "git " 4 false h).2
     = Fulfilled [Ref 0]
  /\ (@_collectCompletions posixUri svc []
        [Provider.stamp [] "git" (listProvider (Some [0]) (Some config))]
        "bash" "git " 4 false h).2
     = Fulfilled [Ref 0].
Proof. repeat split. Qed.

(** A provider for [bash] only contributes nothing to a request for
    [zsh]. *)
Example shell_type_filter :
  let provider :=
    Provider.mk "git" (Some ["bash"])
      (fun _ _ _ => Fulfilled (Some (CompletionArray [0]))) None None in
  let h := [item "status" None] in
  (@_collectCompletions posixUri (newService true false noFiles) []
     [provider] "zsh" "git " 4 false h).2 = Fulfilled []
  /\ (@_collectCompletions posixUri (newService true false noFiles) []
        [provider] "bash" "git " 4 false h).2 = Fulfilled [Ref 0].
Proof. split; reflexivity. Qed.

(** Two providers with answers that have no item in common. *)
Example answers_without_shared_item :
  noSharedItems "bash" "" 0 false
    [Provider.stamp [] "a" (arrayProvider [0]); Provider.stamp [] "b" (arrayProvider [1])].
Proof.
  intros i j p q r Hp Hq.
  destruct i as [|[|i]]; destruct j as [|[|j]]; simpl in *; try done;
    injection Hp as <-; injection Hq as <-;
    intros ->%list_elem_of_singleton; by intros ?%list_elem_of_singleton.
Qed.

(** Two providers that return the same item: the labels are written in
    the order in which the promises end, the handles are not affected. *)
Example shared_item_labels_follow_the_schedule :
  let p := Provider.stamp [] "a" (arrayProvider [0]) in
  let q := Provider.stamp [] "b" (arrayProvider [0]) in
  let svc := newService true true noFiles in
  let h := [item "x" None] in
  @_collectCompletions posixUri svc [0] [p; q] "bash" "" 0 false h
  = ([item "x" (Some "(b) (a) ")], Fulfilled [Ref 0; Ref 0])
  /\ @_collectCompletions posixUri svc [1] [p; q] "bash" "" 0 false h
     = ([item "x" (Some "(a) (b) ")], Fulfilled [Ref 0; Ref 0]).
Proof. split; reflexivity. Qed.


(** C8, as stated, fails when another candidate throws: the first of
    three providers answers with a list that has an item and asks for
    the files and folders of a directory that cannot be listed, and the
    second throws. [_resolveResources] returns [undefined] and the
    promise of the first provider is fulfilled with its item, but the
    request is rejected and the item is not returned. Had the second
    answered [undefined], the item would have been returned. *)
Lemma listing_failure_beside_a_throwing_provider :
  let config := requestAll (fileUri 0 "/home/u") in
  let h := [item "status" None] in
  let '(store, svc) :=
    withThree (listProvider (Some [0]) (Some config)) throwingProvider
      silentProvider false in
  let '(store', svc') :=
    withThree (listProvider (Some [0]) (Some config)) silentProvider
      silentProvider false in
  let provider := Provider.stamp [] "one" (listProvider (Some [0]) (Some config)) in
  childrenOf (_fileService svc) (fileUri 0 "/home/u") = None
  /\ @_resolveResources posixUri svc config "git " 4 = None
  /\ (@completionPromise posixUri svc "bash" "git " 4 false provider h).2
     = Fulfilled (Some [Ref 0])
  /\ map Provider.id (candidates store svc "git " 4 false) = ["one"; "two"; "three"]
  /\ (@provideCompletions posixUri store svc [] "git " 4 "bash" false false h).2
     = Rejected
  /\ (@provideCompletions posixUri store' svc' [] "git " 4 "bash" false false h).2
     = Fulfilled [Ref 0].
Proof. repeat split. Qed.

(** ** More on the registry *)

Section registry_more.
Import JsMap JsMapFacts.
Implicit Types (r : Registry) (ext id : string) (p : ProviderRef).

(** The registries that the service can have keep their keys apart: no
    extension occurs twice, no id occurs twice within an extension, so
    no pair of keys occurs twice among the entries; and an extension
    that is left without provider is not kept. *)
Theorem reachable_registry_invariant r :
  Reachable r ->
  NoDup (keys r)
  /\ NoDup (map fst (entries r))
  /\ (forall ext extMap,
        get ext r = Some extMap -> NoDup (keys extMap) /\ extMap <> []).
Proof.
  intros Hr. pose proof (Reachable_inv r Hr) as Hinv.
  split_and!.
  - apply Hinv.
  - by apply NoDup_keys_entries.
  - intros ext extMap Hget. by apply (registryInv_get ext extMap r).
Qed.

Lemma reachable_registry_invariant_witness :
  Reachable oneRegistered
  /\ NoDup (keys oneRegistered)
  /\ NoDup (map fst (entries oneRegistered))
  /\ (forall ext extMap,
        get ext oneRegistered = Some extMap -> NoDup (keys extMap) /\ extMap <> []).
Proof.
  split; [apply reachable_register, reachable_new|].
  apply (reachable_registry_invariant oneRegistered).
  apply reachable_register, reachable_new.
Defined.

Lemma lookupProvider_register_ne ext id p ext' id' r :
  (ext', id') <> (ext, id) ->
  lookupProvider ext' id' (registerInRegistry ext id p r) = lookupProvider ext' id' r.
Proof.
  intros Hne. rewrite registerInRegistry_eq. unfold lookupProvider.
  destruct (decide (ext = ext')) as [<-|Hext].
  - rewrite get_set_eq, get_set_ne by congruence. by destruct (get ext r).
  - by rewrite get_set_ne.
Qed.

Lemma get_delete_nil {V : Type} (k k' : string) (m : JsMap.t string V) :
  delete k m = [] -> k <> k' -> get k' m = None.
Proof.
  intros Hnil Hne. rewrite <- (get_delete_ne k k' m Hne). by rewrite Hnil.
Qed.

Lemma lookupProvider_dispose_ne ext id ext' id' r :
  (ext', id') <> (ext, id) ->
  lookupProvider ext' id' (disposeInRegistry (toDisposable ext id) r)
  = lookupProvider ext' id' r.
Proof.
  intros Hne. unfold lookupProvider.
  destruct (decide (ext = ext')) as [<-|Hext].
  - rewrite get_dispose. destruct (get ext r) as [m|]; [|done].
    assert (id <> id') as Hid by congruence.
    destruct (size (delete id m) =? 0)%nat eqn:Es.
    + symmetry. apply (get_delete_nil id); [|done].
      apply Nat.eqb_eq in Es. by destruct (delete id m).
    + by apply get_delete_ne.
  - unfold disposeInRegistry; simpl. destruct (get ext r) as [m|]; [|done].
    destruct (size (delete id m) =? 0)%nat.
    + by rewrite get_delete_ne.
    + by rewrite get_set_ne.
Qed.

(** A registration and a disposal concern one pair of keys only: what
    is stored under any other pair is left as it is, in any registry. *)
Theorem other_keys_untouched ext id p ext' id' r :
  (ext', id') <> (ext, id) ->
  lookupProvider ext' id' (registerInRegistry ext id p r) = lookupProvider ext' id' r
  /\ lookupProvider ext' id' (disposeInRegistry (toDisposable ext id) r)
     = lookupProvider ext' id' r.
Proof.
  intros Hne. split.
  - by apply lookupProvider_register_ne.
  - by apply lookupProvider_dispose_ne.
Qed.

Lemma other_keys_untouched_witness :
  lookupProvider "ext" "git" (registerInRegistry "ext" "npm" 1 oneRegistered)
  = lookupProvider "ext" "git" oneRegistered
  /\ lookupProvider "ext" "git"
       (disposeInRegistry (toDisposable "ext" "npm") oneRegistered)
     = lookupProvider "ext" "git" oneRegistered.
Proof.
  apply (other_keys_untouched "ext" "npm" 1 "ext" "git" oneRegistered).
  discriminate.
Defined.

(** Invoking a handle whose pair of keys is not registered changes
    nothing; so registering under a free pair and invoking the handle
    gives back the service as it was. *)
Theorem dispose_undoes_fresh_registration
    (store : ProviderStore) (svc : TerminalCompletionService)
    ext id p (chars : list string) :
  Reachable (_providers svc) ->
  lookupProvider ext id (_providers svc) = None ->
  let '(_, svc1, d) := registerTerminalCompletionProvider ext id p chars store svc in
  dispose d svc = svc /\ dispose d svc1 = svc.
Proof.
  intros Hr Hfree. simpl.
  pose proof (count_dispose ext id (_providers svc) (Reachable_inv _ Hr)) as Hd.
  rewrite Hfree in Hd.
  unfold dispose, setProviders. simpl. rewrite dispose_register, Hd.
  by destruct svc.
Qed.

Lemma dispose_undoes_fresh_registration_witness :
  let svc := newService true false noFiles in
  Reachable (_providers svc)
  /\ lookupProvider "ext" "git" (_providers svc) = None
  /\ let '(_, svc1, d) :=
       registerTerminalCompletionProvider "ext" "git" 0 ["-"] twoProviders svc in
     dispose d svc = svc /\ dispose d svc1 = svc.
Proof.
  split; [apply reachable_new|]. split; [reflexivity|].
  apply (dispose_undoes_fresh_registration twoProviders
           (newService true false noFiles) "ext" "git" 0 ["-"]);
    [apply reachable_new|reflexivity].
Defined.

(** *** The order of the entries *)

Lemma entries_cons ext (m : JsMap.t string ProviderRef) r :
  entries ((ext, m) :: r) = entriesOf ext m ++ entries r.
Proof. reflexivity. Qed.

Lemma filter_entriesOf_ne ext ext' id (m : JsMap.t string ProviderRef) :
  ext' <> ext ->
  List.filter (fun e => negb (bool_decide (e.1 = (ext, id)))) (entriesOf ext' m)
  = entriesOf ext' m.
Proof.
  intros Hne. unfold entriesOf. induction m as [|[i q] m IH]; simpl; [done|].
  rewrite bool_decide_false by congruence. simpl. by rewrite IH.
Qed.

Lemma filter_entriesOf_eq ext id (m : JsMap.t string ProviderRef) :
  List.filter (fun e => negb (bool_decide (e.1 = (ext, id)))) (entriesOf ext m)
  = entriesOf ext (delete id m).
Proof.
  unfold entriesOf. induction m as [|[i q] m IH]; simpl; [done|].
  destruct (decide (i = id)) as [->|Hne].
  - rewrite bool_decide_true by done. simpl. exact IH.
  - rewrite bool_decide_false by congruence. simpl. by rewrite IH.
Qed.

Lemma filter_entries_notin ext id r :
  ext ∉ keys r ->
  List.filter (fun e => negb (bool_decide (e.1 = (ext, id)))) (entries r) = entries r.
Proof.
  induction r as [|[e m] r IH]; [done|].
  intros [Hne Hnotin]%not_elem_of_cons.
  rewrite entries_cons, List.filter_app, filter_entriesOf_ne by done.
  by rewrite IH.
Qed.

Lemma dispose_cons_ne ext id e (m : JsMap.t string ProviderRef) r :
  e <> ext ->
  disposeInRegistry (toDisposable ext id) ((e, m) :: r)
  = (e, m) :: disposeInRegistry (toDisposable ext id) r.
Proof.
  intros Hne. unfold disposeInRegistry; simpl. rewrite decide_False by done.
  destruct (get ext r) as [m'|]; [|done].
  destruct (size (delete id m') =? 0)%nat; simpl; by rewrite decide_False.
Qed.

Lemma entries_dispose ext id r :
  wf r ->
  entries (disposeInRegistry (toDisposable ext id) r)
  = List.filter (fun e => negb (bool_decide (e.1 = (ext, id)))) (entries r).
Proof.
  unfold wf. induction r as [|[e m] r IH]; [done|].
  intros [Hnotin Hwf]%NoDup_cons.
  rewrite entries_cons, List.filter_app.
  destruct (decide (e = ext)) as [->|Hne].
  - rewrite filter_entriesOf_eq, filter_entries_notin by done.
    unfold disposeInRegistry; simpl. rewrite decide_True by done.
    destruct (size (delete id m) =? 0)%nat eqn:Es; simpl; rewrite decide_True by done.
    + apply Nat.eqb_eq in Es. destruct (delete id m); [|done].
      simpl. by rewrite delete_notin.
    + by rewrite entries_cons.
  - rewrite dispose_cons_ne, entries_cons, filter_entriesOf_ne by done.
    by rewrite IH.
Qed.

(** The disposal takes out the entry of its pair of keys and nothing
    else: the other entries stay, in the order they had. *)
Theorem dispose_removes_exactly_its_entry (d : IDisposable) r :
  Reachable r ->
  entries (disposeInRegistry d r)
  = List.filter
      (fun e =>
         negb (bool_decide (e.1 = (disposeExtensionIdentifier d, disposeId d))))
      (entries r)
  /\ _providersGenerator (disposeInRegistry d r)
     = map snd
         (List.filter
            (fun e =>
               negb (bool_decide (e.1 = (disposeExtensionIdentifier d, disposeId d))))
            (entries r)).
Proof.
  intros Hr. destruct d as [ext id invoked]. simpl.
  change (disposeInRegistry (mkDisposable ext id invoked))
    with (disposeInRegistry (toDisposable ext id)).
  pose proof (Reachable_inv r Hr) as [Hwf _].
  split.
  - by apply entries_dispose.
  - rewrite providersGenerator_entries. by rewrite entries_dispose.
Qed.

Lemma dispose_removes_exactly_its_entry_witness :
  let r := registerInRegistry "ext" "npm" 1 oneRegistered in
  Reachable r
  /\ entries (disposeInRegistry (toDisposable "ext" "git") r)
     = List.filter (fun e => negb (bool_decide (e.1 = ("ext", "git")))) (entries r)
  /\ _providersGenerator (disposeInRegistry (toDisposable "ext" "git") r)
     = map snd
         (List.filter (fun e => negb (bool_decide (e.1 = ("ext", "git")))) (entries r)).
Proof.
  split; [do 2 apply reachable_register; apply reachable_new|].
  apply (dispose_removes_exactly_its_entry (toDisposable "ext" "git")
           (registerInRegistry "ext" "npm" 1 oneRegistered)).
  do 2 apply reachable_register. apply reachable_new.
Defined.
End registry_more.

(** ** Registration: order, provider object, selection *)

Section registration_more.
Import JsMap JsMapFacts.
Implicit Types (r : Registry) (ext id : string) (p : ProviderRef).

Lemma entries_app r1 r2 : entries (r1 ++ r2) = entries r1 ++ entries r2.
Proof. unfold entries. apply flat_map_app. Qed.

Lemma get_cons {V : Type} (k k' : string) (v : V) (m : JsMap.t string V) :
  get k ((k', v) :: m) = if decide (k' = k) then Some v else get k m.
Proof. reflexivity. Qed.

Lemma set_cons {V : Type} (k k' : string) (v v' : V) (m : JsMap.t string V) :
  set k v ((k', v') :: m)
  = if decide (k' = k) then (k', v) :: m else (k', v') :: set k v m.
Proof. reflexivity. Qed.

Lemma entries_set ext (m : JsMap.t string ProviderRef) r :
  get ext r = Some m ->
  exists before after,
    entries r = before ++ entriesOf ext m ++ after
    /\ forall m', entries (set ext m' r) = before ++ entriesOf ext m' ++ after.
Proof.
  induction r as [|[e m0] r IH]; [done|]. rewrite get_cons.
  destruct (decide (e = ext)) as [->|Hne].
  - intros [= ->]. exists [], (entries r). split; [done|].
    intros m'. by rewrite set_cons, decide_True, entries_cons.
  - intros Hget. destruct (IH Hget) as (before & after & Hr & Hset).
    exists (entriesOf e m0 ++ before), after. split.
    + rewrite entries_cons, Hr. by rewrite <- app_assoc.
    + intros m'. rewrite set_cons, decide_False, entries_cons, Hset by done.
      by rewrite <- app_assoc.
Qed.

(** A registration changes the enumeration within its extension only.
    The provider of a new extension comes last of all. In an extension
    that has providers already, the provider takes the place of the one
    it replaces, or comes last of that extension; the entries before and
    after those of the extension stay as they are. *)
Theorem registration_keeps_order ext id p r :
  match get ext r with
  | None =>
      entries (registerInRegistry ext id p r) = entries r ++ [((ext, id), p)]
  | Some extMap =>
      exists before after,
        entries r = before ++ entriesOf ext extMap ++ after
        /\ entries (registerInRegistry ext id p r)
           = before ++ entriesOf ext (set id p extMap) ++ after
  end.
Proof.
  rewrite registerInRegistry_eq. destruct (get ext r) as [m|] eqn:Hget.
  - destruct (entries_set ext m r Hget) as (before & after & Hr & Hset).
    exists before, after. split; [done|]. apply Hset.
  - simpl. rewrite set_notin by by apply get_None.
    by rewrite entries_app.
Qed.

(** Lines 110-111 write the id and the trigger characters into the
    provider object that was passed in, and into no other object; the
    registry then holds that object under the pair of keys. *)
Theorem registration_stamps_provider
    (store : ProviderStore) (svc : TerminalCompletionService)
    ext id p (chars : list string) (provider : ITerminalCompletionProvider) :
  store !! p = Some provider ->
  let '(store', svc', _) :=
    registerTerminalCompletionProvider ext id p chars store svc in
  store' !! p
  = Some (Provider.mk id (Provider.shellTypes provider)
            (Provider.provideCompletions provider) (Some chars)
            (Provider.isBuiltin provider))
  /\ (forall q, q <> p -> store' !! q = store !! q)
  /\ length store' = length store
  /\ lookupProvider ext id (_providers svc') = Some p.
Proof.
  intros Hp. simpl. split_and!.
  - by rewrite list_lookup_alter_eq, Hp.
  - intros q Hq. by rewrite list_lookup_alter_ne.
  - apply length_alter.
  - apply lookupProvider_register.
Qed.

Lemma registration_stamps_provider_witness :
  twoProviders !! 1 = Some silentProvider
  /\ let '(store', svc', _) :=
       registerTerminalCompletionProvider "ext" "git" 1 ["-"; "/"] twoProviders
         (newService true false noFiles) in
     store' !! 1
     = Some (Provider.mk "git" (Provider.shellTypes silentProvider)
               (Provider.provideCompletions silentProvider) (Some ["-"; "/"])
               (Provider.isBuiltin silentProvider))
     /\ (forall q, q <> 1 -> store' !! q = twoProviders !! q)
     /\ length store' = length twoProviders
     /\ lookupProvider "ext" "git" (_providers svc') = Some 1.
Proof.
  split; [reflexivity|].
  apply (registration_stamps_provider twoProviders (newService true false noFiles)
           "ext" "git" 1 ["-"; "/"] silentProvider).
  reflexivity.
Defined.

Lemma elem_of_providersGenerator ext id p r :
  lookupProvider ext id r = Some p -> p ∈ _providersGenerator r.
Proof.
  intros Hl%lookupProvider_entries. rewrite providersGenerator_entries.
  rewrite map_fmap. apply list_elem_of_fmap. by exists ((ext, id), p).
Qed.

(** A provider that has just been registered is among the candidates of
    a request with the trigger-character flag exactly when one of the
    trigger characters given at its registration ends the prompt up to
    the cursor, and it is among the candidates of every request without
    the flag (extension completions being enabled). *)
Theorem registered_provider_is_candidate
    (store : ProviderStore) (svc : TerminalCompletionService)
    ext id p (chars : list string) (provider : ITerminalCompletionProvider)
    (promptValue : string) (cursorPosition : Z) :
  store !! p = Some provider ->
  enableExtensionCompletions (_configurationService svc) = true ->
  let '(store', svc', _) :=
    registerTerminalCompletionProvider ext id p chars store svc in
  let registered := Provider.stamp chars id provider in
  (registered ∈ candidates store' svc' promptValue cursorPosition true
   <-> existsb (JsString.endsWith (JsString.substring0 promptValue cursorPosition))
         chars = true)
  /\ registered ∈ candidates store' svc' promptValue cursorPosition false.
Proof.
  intros Hp Henabled. simpl.
  set (store' := alter (Provider.stamp chars id) p store).
  set (svc' := setProviders (registerInRegistry ext id p (_providers svc)) svc).
  assert (Provider.stamp chars id provider ∈ providers store' svc') as Hin.
  { unfold providers. apply list_elem_of_omap. exists p. split.
    - apply (elem_of_providersGenerator ext id). apply lookupProvider_register.
    - subst store'. by rewrite list_lookup_alter_eq, Hp. }
  unfold candidates. simpl. rewrite Henabled. simpl. split; [|done].
  unfold providersToRequest. rewrite elem_of_filter_bool. simpl.
  split; [by intros [_ ?]|done].
Qed.

Lemma registered_provider_is_candidate_witness :
  twoProviders !! 1 = Some silentProvider
  /\ let '(store', svc', _) :=
       registerTerminalCompletionProvider "ext" "git" 1 ["-"; "/"] twoProviders
         (newService true false noFiles) in
     let registered := Provider.stamp ["-"; "/"] "git" silentProvider in
     (registered ∈ candidates store' svc' "cd src/" 7 true
      <-> existsb (JsString.endsWith (JsString.substring0 "cd src/" 7)) ["-"; "/"]
          = true)
     /\ registered ∈ candidates store' svc' "cd src/" 7 false.
Proof.
  split; [reflexivity|].
  apply (registered_provider_is_candidate twoProviders
           (newService true false noFiles) "ext" "git" 1 ["-"; "/"] silentProvider
           "cd src/" 7%Z); reflexivity.
Defined.

(** *** The candidates as one filter *)

Lemma filter_filter_bool {A : Type} (f g : A -> bool) (l : list A) :
  List.filter f (List.filter g l) = List.filter (fun x => g x && f x) l.
Proof.
  induction l as [|x l IH]; [done|]. simpl.
  destruct (g x); simpl; [|done]. destruct (f x); simpl; by rewrite IH.
Qed.

Lemma filter_true {A : Type} (l : list A) : List.filter (fun _ => true) l = l.
Proof. induction l as [|x l IH]; [done|]. simpl. by rewrite IH. Qed.

(** In either mode and under either policy, the candidates are the
    registered providers that pass one test, in the order of the
    generator: with the trigger-character flag, one of the trigger
    characters ends the prompt up to the cursor; with extension
    completions disabled, the provider is flagged as built in. So a
    provider that is not built in is never invoked while extension
    completions are disabled. *)
Theorem candidates_are_a_filter
    (store : ProviderStore) (svc : TerminalCompletionService)
    (promptValue : string) (cursorPosition : Z) (triggerCharacter : bool) :
  candidates store svc promptValue cursorPosition triggerCharacter
  = List.filter
      (fun provider =>
         (negb triggerCharacter || endsWithTrigger promptValue cursorPosition provider)
         && (enableExtensionCompletions (_configurationService svc)
             || default false (Provider.isBuiltin provider)))
      (providers store svc).
Proof.
  unfold candidates.
  assert (providersToRequest promptValue cursorPosition (providers store svc)
          = List.filter (endsWithTrigger promptValue cursorPosition)
              (providers store svc)) as ->.
  { unfold providersToRequest. apply List.filter_ext. intros q.
    unfold endsWithTrigger. by destruct (Provider.triggerCharacters q). }
  destruct triggerCharacter, (enableExtensionCompletions _); simpl.
  - apply List.filter_ext. intros q. by rewrite andb_true_r.
  - rewrite filter_filter_bool. done.
  - by rewrite filter_true.
  - done.
Qed.
End registration_more.

(** ** More on strings: substrings and segments *)

Module JsSplitFacts.
Import JsString JsStringFacts.

Lemma substring0_nonpos (s : string) (e : Z) : (e <= 0)%Z -> substring0 s e = "".
Proof.
  intros He. unfold substring0. replace (Z.to_nat e) with 0 by lia. by destruct s.
Qed.

Lemma substring_0_app_drop (n : nat) (s : string) :
  String.substring 0 n s +:+ drop n s = s.
Proof.
  revert s. induction n as [|n IH]; intros s.
  - by destruct s.
  - destruct s as [|c s]; [done|]. simpl. by rewrite app_cons, IH.
Qed.

Lemma length_substring_0 (n : nat) (s : string) :
  n <= String.length s -> String.length (String.substring 0 n s) = n.
Proof.
  revert s. induction n as [|n IH]; intros s Hn.
  - by destruct s.
  - destruct s as [|c s]; simpl in *; [lia|]. rewrite IH; lia.
Qed.

Lemma substring_0_ge (n : nat) (s : string) :
  String.length s <= n -> String.substring 0 n s = s.
Proof.
  revert s. induction n as [|n IH]; intros s Hn.
  - destruct s; [done|]. simpl in Hn. lia.
  - destruct s as [|c s]; [done|]. simpl in *. rewrite IH; [done|lia].
Qed.

Lemma substring_0_app (a b : string) :
  String.substring 0 (String.length a) (a +:+ b) = a.
Proof.
  induction a as [|c a IH].
  - by destruct b.
  - rewrite app_cons. simpl. by rewrite IH.
Qed.

Lemma drop_nil (n : nat) : drop n "" = "".
Proof. by destruct n. Qed.

Lemma endsWith_empty (c : string) : endsWith "" c = String.eqb "" c.
Proof.
  unfold endsWith. rewrite drop_nil. destruct c as [|x c]; [done|].
  simpl. done.
Qed.

(** *** The segments of a split *)

Lemma splitFrom_ne_nil (sep : string) (skip : nat) (cur s : string) :
  splitFrom sep skip cur s <> [].
Proof.
  revert skip cur. induction s as [|c s IH]; intros skip cur; [done|].
  simpl. destruct skip; [|apply IH].
  destruct (startsWith (String c s) sep); [done|apply IH].
Qed.

Lemma last_cons_ne {A : Type} (x d : A) (l : list A) :
  l <> [] -> List.last (x :: l) d = List.last l d.
Proof. by destruct l. Qed.

Lemma splitFrom_cons (sep : string) (skip : nat) (cur : string) (c : ascii)
    (s : string) :
  splitFrom sep skip cur (String c s)
  = match skip with
    | S k => splitFrom sep k cur s
    | O =>
        if startsWith (String c s) sep
        then cur :: splitFrom sep (String.length sep - 1) "" s
        else splitFrom sep 0 (cur +:+ String c "") s
    end.
Proof. reflexivity. Qed.

(** The last segment is the end of the text that was split. *)
Lemma last_splitFrom_suffix (sep : string) (skip : nat) (cur s : string) :
  skip = 0 \/ cur = "" ->
  exists a, cur +:+ s = a +:+ List.last (splitFrom sep skip cur s) "".
Proof.
  revert skip cur. induction s as [|c s IH]; intros skip cur Hstate.
  - exists "". simpl. by rewrite app_nil_r, app_nil_l.
  - rewrite splitFrom_cons. destruct skip as [|k].
    + destruct (startsWith (String c s) sep).
      * rewrite last_cons_ne by apply splitFrom_ne_nil.
        destruct (IH (String.length sep - 1) "" (or_intror eq_refl)) as [a Ha].
        rewrite app_nil_l in Ha. exists (cur +:+ String c a).
        by rewrite app_assoc, app_cons, <- Ha.
      * destruct (IH 0 (cur +:+ String c "") (or_introl eq_refl)) as [a Ha].
        exists a. rewrite <- Ha. by rewrite app_assoc.
    + destruct Hstate as [?| ->]; [done|].
      destruct (IH k "" (or_intror eq_refl)) as [a Ha].
      rewrite app_nil_l in Ha. exists (String c a).
      by rewrite app_nil_l, app_cons, <- Ha.
Qed.

Lemma hasChar_app (ch : ascii) (a b : string) :
  hasChar ch (a +:+ b) = hasChar ch a || hasChar ch b.
Proof.
  induction a as [|x a IH]; [done|].
  rewrite app_cons. simpl. by rewrite IH, orb_assoc.
Qed.

Lemma includes_char (ch : ascii) (s : string) :
  includes s (String ch "") = hasChar ch s.
Proof.
  induction s as [|x s IH]; [done|].
  simpl. rewrite IH. f_equal.
  destruct (decide (ch = x)) as [->|Hne].
  - by rewrite bool_decide_true.
  - by rewrite bool_decide_false by congruence.
Qed.

(** With a separator of one character, the last segment is free of it. *)
Lemma last_splitFrom_char (ch : ascii) (cur s : string) :
  hasChar ch cur = false ->
  hasChar ch (List.last (splitFrom (String ch "") 0 cur s) "") = false.
Proof.
  revert cur. induction s as [|c s IH]; intros cur Hcur; [done|].
  rewrite splitFrom_cons. simpl.
  destruct (decide (ch = c)) as [->|Hne].
  - rewrite last_cons_ne by apply splitFrom_ne_nil. by apply IH.
  - apply IH. rewrite hasChar_app, Hcur. simpl.
    by rewrite bool_decide_false by congruence.
Qed.

(** *** Splitting and joining again *)

Lemma concat_cons_ne (sep x : string) (l : list string) :
  l <> [] -> String.concat sep (x :: l) = x +:+ sep +:+ String.concat sep l.
Proof. by destruct l. Qed.

Lemma startsWith_length (s p : string) :
  startsWith s p = true -> String.length p <= String.length s.
Proof.
  intros [t ->]%startsWith_spec. rewrite length_app. lia.
Qed.

Lemma join_splitFrom (a : ascii) (sep' : string) (skip : nat) (cur s : string) :
  skip <= String.length s ->
  join (splitFrom (String a sep') skip cur s) (String a sep') = cur +:+ drop skip s.
Proof.
  unfold join. revert skip cur. induction s as [|c s IH]; intros skip cur Hskip.
  - simpl in Hskip. replace skip with 0 by lia. simpl. by rewrite app_nil_r.
  - rewrite splitFrom_cons. destruct skip as [|k].
    + destruct (startsWith (String c s) (String a sep')) eqn:Hstart.
      * rewrite concat_cons_ne by apply splitFrom_ne_nil.
        pose proof (startsWith_length _ _ Hstart) as Hlen.
        apply startsWith_spec in Hstart as [t Ht]. rewrite app_cons in Ht.
        injection Ht as -> ->.
        rewrite IH by (simpl in *; lia).
        simpl. rewrite Nat.sub_0_r, drop_app_length. by rewrite app_nil_l, app_cons.
      * rewrite IH by lia. simpl. by rewrite app_assoc.
    + rewrite IH by (simpl in Hskip; lia). done.
Qed.

Lemma join_chars (s : string) :
  join (map (fun c => String c "") (String.list_ascii_of_string s)) "" = s.
Proof.
  unfold join. induction s as [|c s IH]; [done|]. simpl.
  destruct (String.list_ascii_of_string s) as [|x l] eqn:E.
  - destruct s; [done|discriminate E].
  - simpl in *. by rewrite IH.
Qed.

(** Joining the segments of a split with the separator gives the text
    back, for every separator. *)
Lemma join_split (s sep : string) : join (split s sep) sep = s.
Proof.
  unfold split. destruct sep as [|a sep'].
  - apply join_chars.
  - rewrite join_splitFrom by lia. by rewrite app_nil_l.
Qed.

Lemma join_removelast (l : list string) (sep : string) :
  join l sep
  = match removelast l with
    | [] => List.last l ""
    | _ :: _ => join (removelast l) sep +:+ sep +:+ List.last l ""
    end.
Proof.
  unfold join. induction l as [|x l IH]; [done|].
  destruct l as [|y l]; [done|].
  rewrite concat_cons_ne by done. rewrite IH.
  change (removelast (x :: y :: l)) with (x :: removelast (y :: l)).
  change (List.last (x :: y :: l) "") with (List.last (y :: l) "").
  destruct (removelast (y :: l)) as [|z l'] eqn:E.
  - done.
  - change (String.concat sep (x :: z :: l'))
      with (x +:+ sep +:+ String.concat sep (z :: l')).
    by rewrite !app_assoc.
Qed.

(** *** Removing the first occurrence *)

Lemma replaceFirst_unfold (s pattern : string) :
  replaceFirst s pattern
  = if startsWith s pattern then drop (String.length pattern) s
    else match s with
         | EmptyString => EmptyString
         | String c s' => String c (replaceFirst s' pattern)
         end.
Proof. by destruct s. Qed.

Lemma replaceFirst_prefix (p rest : string) : replaceFirst (p +:+ rest) p = rest.
Proof.
  rewrite replaceFirst_unfold, startsWith_app. apply drop_app_length.
Qed.

Lemma replaceFirst_absent (s p : string) :
  includes s p = false -> replaceFirst s p = s.
Proof.
  induction s as [|c s IH]; simpl.
  - intros Hin. apply orb_false_iff in Hin as [-> _]. done.
  - intros Hin. apply orb_false_iff in Hin as [-> Hin]. by rewrite IH.
Qed.
End JsSplitFacts.

(** ** More on the selection and on the resolution of resources *)

Section edges.
Import JsString JsStringFacts JsSplitFacts.

(** With the cursor at the start of the prompt, or before it, the
    prompt up to the cursor is empty: under the trigger-character flag a
    provider is selected exactly when one of its trigger characters is
    the empty string, so with proper characters none is. *)
Theorem trigger_selection_at_start
    (promptValue : string) (cursorPosition : Z)
    (ps : list ITerminalCompletionProvider) :
  (cursorPosition <= 0)%Z ->
  providersToRequest promptValue cursorPosition ps
  = List.filter
      (fun p => existsb (String.eqb "") (default [] (Provider.triggerCharacters p)))
      ps.
Proof.
  intros Hc. unfold providersToRequest. apply List.filter_ext. intros p.
  rewrite substring0_nonpos by done.
  destruct (Provider.triggerCharacters p) as [chars|]; [|done].
  simpl. induction chars as [|c chars IH]; [done|].
  simpl. by rewrite endsWith_empty, IH.
Qed.

Lemma trigger_selection_at_start_witness :
  (0 <= 0)%Z
  /\ providersToRequest "git -" 0
       [Provider.stamp ["-"] "git" silentProvider; Provider.stamp [""] "any" silentProvider]
     = List.filter
         (fun p => existsb (String.eqb "") (default [] (Provider.triggerCharacters p)))
         [Provider.stamp ["-"] "git" silentProvider;
          Provider.stamp [""] "any" silentProvider].
Proof.
  split; [lia|].
  apply (trigger_selection_at_start "git -" 0%Z); lia.
Defined.

(** A cursor position past the end of the prompt counts as its end for
    the selection by trigger character and for the last word; the
    replacement index is still computed from the position given. *)
Theorem cursor_past_the_end
    (promptValue : string) (cursorPosition : Z)
    (ps : list ITerminalCompletionProvider) :
  (Z.of_nat (String.length promptValue) <= cursorPosition)%Z ->
  substring0 promptValue cursorPosition = promptValue
  /\ providersToRequest promptValue cursorPosition ps
     = providersToRequest promptValue (Z.of_nat (String.length promptValue)) ps
  /\ lastWordOf promptValue cursorPosition
     = lastWordOf promptValue (Z.of_nat (String.length promptValue)).
Proof.
  intros Hc.
  assert (forall e, (Z.of_nat (String.length promptValue) <= e)%Z ->
                    substring0 promptValue e = promptValue) as Hsub
    by (intros e He; unfold substring0; apply substring_0_ge; lia).
  unfold providersToRequest, lastWordOf.
  rewrite (Hsub cursorPosition Hc), (Hsub (Z.of_nat (String.length promptValue)))
    by lia.
  done.
Qed.

Lemma cursor_past_the_end_witness :
  (Z.of_nat (String.length "cd src") <= 10)%Z
  /\ substring0 "cd src" 10 = "cd src"
  /\ providersToRequest "cd src" 10 [silentProvider]
     = providersToRequest "cd src" (Z.of_nat (String.length "cd src")) [silentProvider]
  /\ lastWordOf "cd src" 10 = lastWordOf "cd src" (Z.of_nat (String.length "cd src")).
Proof.
  split; [simpl; lia|].
  apply (cursor_past_the_end "cd src" 10%Z [silentProvider]). simpl. lia.
Defined.

(** The replacement range of the file and folder completions (lines 209
    and 236): for a cursor within the prompt, the last word is what
    stands between the replacement index and the cursor, it contains no
    space, and the index lies between 0 and the cursor. *)
Theorem replacement_starts_at_last_word (promptValue : string) (cursorPosition : Z) :
  (0 <= cursorPosition <= Z.of_nat (String.length promptValue))%Z ->
  let lastWord := lastWordOf promptValue cursorPosition in
  let replacementIndex := (cursorPosition - Z.of_nat (String.length lastWord))%Z in
  (0 <= replacementIndex <= cursorPosition)%Z
  /\ substring0 promptValue cursorPosition
     = substring0 promptValue replacementIndex +:+ lastWord
  /\ includes lastWord " " = false.
Proof.
  intros Hc lastWord replacementIndex.
  destruct (last_splitFrom_suffix " " 0 "" (substring0 promptValue cursorPosition)
              (or_introl eq_refl)) as [a Ha].
  rewrite app_nil_l in Ha. fold (split (substring0 promptValue cursorPosition) " ") in Ha.
  fold (lastWordOf promptValue cursorPosition) in Ha. fold lastWord in Ha.
  assert (String.length (substring0 promptValue cursorPosition)
          = Z.to_nat cursorPosition) as Hlen
    by (unfold substring0; apply length_substring_0; lia).
  pose proof Hlen as Hlen'. rewrite Ha, length_app in Hlen'.
  assert (Z.to_nat replacementIndex = String.length a) as Hindex
    by (subst replacementIndex; lia).
  split_and!.
  - subst replacementIndex. lia.
  - subst replacementIndex. lia.
  - rewrite Ha at 1. f_equal.
    pose proof (substring_0_app_drop (Z.to_nat cursorPosition) promptValue) as Hp.
    fold (substring0 promptValue cursorPosition) in Hp. rewrite Ha, app_assoc in Hp.
    unfold substring0 at 1. rewrite Hindex, <- Hp. symmetry. apply substring_0_app.
  - rewrite (includes_char " "%char). subst lastWord. unfold lastWordOf, split.
    by apply last_splitFrom_char.
Qed.

Lemma replacement_starts_at_last_word_witness :
  (0 <= 6 <= Z.of_nat (String.length "cd src/x"))%Z
  /\ let lastWord := lastWordOf "cd src/x" 6 in
     let replacementIndex := (6 - Z.of_nat (String.length lastWord))%Z in
     (0 <= replacementIndex <= 6)%Z
     /\ substring0 "cd src/x" 6 = substring0 "cd src/x" replacementIndex +:+ lastWord
     /\ includes lastWord " " = false.
Proof.
  split; [simpl; lia|].
  apply (replacement_starts_at_last_word "cd src/x" 6%Z). simpl. lia.
Defined.

(** Line 202 drops the last segment of the path of the working
    directory. When the path has the separator in it, the path is the
    parent path, the separator and the last segment; otherwise the
    parent path is empty. For a separator of one character the last
    segment is free of it, so the parent path ends before the last
    separator of the path. *)
Theorem parent_path_drops_last_segment (cwd : URI.t) (pathSeparator : string) :
  let parts := split (URI.fsPath cwd) pathSeparator in
  match removelast parts with
  | [] =>
      parentDirPath cwd pathSeparator = "" /\ URI.fsPath cwd = List.last parts ""
  | _ :: _ =>
      URI.fsPath cwd
      = parentDirPath cwd pathSeparator +:+ pathSeparator +:+ List.last parts ""
  end
  /\ (forall ch, pathSeparator = String ch "" -> hasChar ch (List.last parts "") = false).
Proof.
  intros parts. split.
  - pose proof (join_split (URI.fsPath cwd) pathSeparator) as Hjoin.
    fold parts in Hjoin. rewrite join_removelast in Hjoin.
    unfold parentDirPath. fold parts.
    destruct (removelast parts); [by split|done].
  - intros ch ->. subst parts. unfold split. by apply last_splitFrom_char.
Qed.

(** Lines 219-228: a child that is a directory is offered as a folder
    when folders are requested and not at all otherwise, whatever its
    file marker says; another child is offered as a file when files are
    requested and it has the file marker or the scheme [file]. *)
Theorem child_is_folder_or_file (foldersRequested filesRequested : bool)
    (stat : IFileStat) :
  kindOfStat foldersRequested filesRequested stat
  = if Stat.isDirectory stat
    then (if foldersRequested then Some Folder else None)
    else if filesRequested
            && (Stat.isFile stat
                || String.eqb (URI.scheme (Stat.resource stat)) Schemas_file)
         then Some File
         else None.
Proof.
  unfold kindOfStat.
  destruct foldersRequested, filesRequested, (Stat.isDirectory stat),
    (Stat.isFile stat), (String.eqb _ _); reflexivity.
Qed.
End edges.

(** ** The completions for files and folders *)

Section resources.
Context `{URI.Impl}.
Import JsString JsStringFacts JsSplitFacts.

Lemma elem_of_childCompletions (folders files : bool) (cwd : URI.t)
    (cursorPosition : Z) (lastWord prefix : string) (children : list IFileStat)
    (c : Completion.t) :
  c ∈ childCompletions folders files cwd cursorPosition lastWord prefix children ->
  exists stat kind,
    stat ∈ children
    /\ kindOfStat folders files stat = Some kind
    /\ (kind = File \/ kind = Folder)
    /\ c = Completion.mk
             (prefix +:+ replaceFirst (URI.fsPath (Stat.resource stat)) (URI.fsPath cwd))
             None (Some kind) (Some (isKind kind Folder)) (Some (isKind kind File))
             (cursorPosition - Z.of_nat (String.length lastWord))%Z
             (Z.of_nat
                (String.length
                   (prefix
                    +:+ replaceFirst (URI.fsPath (Stat.resource stat)) (URI.fsPath cwd)))).
Proof.
  unfold childCompletions. intros (stat & Hin & Hc)%list_elem_of_omap.
  destruct (kindOfStat folders files stat) as [kind|] eqn:Hkind; [|done].
  injection Hc as <-. exists stat, kind. split_and!; try done.
  revert Hkind. unfold kindOfStat.
  destruct (folders && Stat.isDirectory stat),
    (files && negb (Stat.isDirectory stat) && _); naive_solver.
Qed.

Lemma resolved_resources_come_from_both_listings_aux
    (svc : TerminalCompletionService) (config : TerminalResourceRequestConfig)
    (promptValue : string) (cursorPosition : Z) (result : list Completion.t) :
  _resolveResources svc config promptValue cursorPosition = Some result ->
  exists cwd children1 children2,
    ResourceRequestConfig.cwd config = Some cwd
    /\ result
       = childCompletions
           (default false (ResourceRequestConfig.foldersRequested config))
           (default false (ResourceRequestConfig.filesRequested config))
           cwd cursorPosition (lastWordOf promptValue cursorPosition) "." children1
         ++ childCompletions
              (default false (ResourceRequestConfig.foldersRequested config))
              (default false (ResourceRequestConfig.filesRequested config))
              cwd cursorPosition (lastWordOf promptValue cursorPosition) ".."
              children2.
Proof.
  unfold _resolveResources, URI.revive.
  destruct (ResourceRequestConfig.cwd config) as [cwd|]; [|done].
  destruct (negb _ && negb _); [done|].
  rewrite dirToPrefixMap_entries, resolveDirs_cons.
  destruct (childrenOf (_fileService svc) cwd) as [children1|]; [|done].
  rewrite resolveDirs_cons.
  destruct (childrenOf (_fileService svc) (parentCwd cwd _)) as [children2|];
    [|done].
  simpl. destruct (length _ =? 0); [done|].
  intros [= <-]. by exists cwd, children1, children2.
Qed.

Lemma resolved_resources_shape_aux
    (svc : TerminalCompletionService) (config : TerminalResourceRequestConfig)
    (promptValue : string) (cursorPosition : Z) (result : list Completion.t) :
  _resolveResources svc config promptValue cursorPosition = Some result ->
  forall c, c ∈ result ->
    exists prefix stat kind,
      (prefix = "." \/ prefix = "..")
      /\ (kind = File \/ kind = Folder)
      /\ c = Completion.mk
               (prefix
                +:+ replaceFirst (URI.fsPath (Stat.resource stat))
                      (URI.fsPath (default (URI.mk 0 "" "" "")
                                     (ResourceRequestConfig.cwd config))))
               None (Some kind) (Some (isKind kind Folder)) (Some (isKind kind File))
               (cursorPosition
                - Z.of_nat (String.length (lastWordOf promptValue cursorPosition)))%Z
               (Z.of_nat
                  (String.length
                     (prefix
                      +:+ replaceFirst (URI.fsPath (Stat.resource stat))
                            (URI.fsPath (default (URI.mk 0 "" "" "")
                                           (ResourceRequestConfig.cwd config)))))).
Proof.
  intros Hres c Hin.
  apply resolved_resources_come_from_both_listings_aux in Hres
    as (cwd & children1 & children2 & Hcwd & -> ).
  rewrite Hcwd. simpl.
  apply elem_of_app in Hin as [Hin|Hin];
    apply elem_of_childCompletions in Hin as (stat & kind & _ & _ & Hkind & ->).
  - exists ".", stat, kind. by split_and!; [left| |].
  - exists "..", stat, kind. by split_and!; [right| |].
Qed.

(** What a result of [_resolveResources] tells: it is not empty; a
    working directory was given and files or folders were requested; the
    working directory and its parent were both listed; and the result is
    made of the completions for the children of the first, under [.],
    followed by those for the children of the second, under [..]. *)
Theorem resolved_resources_come_from_both_listings
    (svc : TerminalCompletionService) (config : TerminalResourceRequestConfig)
    (promptValue : string) (cursorPosition : Z) (result : list Completion.t) :
  _resolveResources svc config promptValue cursorPosition = Some result ->
  result <> []
  /\ (default false (ResourceRequestConfig.foldersRequested config)
      || default false (ResourceRequestConfig.filesRequested config)) = true
  /\ exists cwd children1 children2,
       ResourceRequestConfig.cwd config = Some cwd
       /\ childrenOf (_fileService svc) cwd = Some children1
       /\ childrenOf (_fileService svc)
            (parentCwd cwd (ResourceRequestConfig.pathSeparator config))
          = Some children2
       /\ result
          = childCompletions
              (default false (ResourceRequestConfig.foldersRequested config))
              (default false (ResourceRequestConfig.filesRequested config))
              cwd cursorPosition (lastWordOf promptValue cursorPosition) "." children1
            ++ childCompletions
                 (default false (ResourceRequestConfig.foldersRequested config))
                 (default false (ResourceRequestConfig.filesRequested config))
                 cwd cursorPosition (lastWordOf promptValue cursorPosition) ".."
                 children2.
Proof.
  unfold _resolveResources, URI.revive.
  destruct (ResourceRequestConfig.cwd config) as [cwd|]; [|done].
  destruct (negb _ && negb _) eqn:Hreq; [done|].
  rewrite dirToPrefixMap_entries, resolveDirs_cons.
  destruct (childrenOf (_fileService svc) cwd) as [children1|] eqn:H1; [|done].
  rewrite resolveDirs_cons.
  destruct (childrenOf (_fileService svc) (parentCwd cwd _)) as [children2|] eqn:H2;
    [|done].
  simpl. destruct (length _ =? 0) eqn:Hlen; [done|].
  intros [= <-]. split_and!.
  - intros E. by rewrite E in Hlen.
  - by destruct (default false (ResourceRequestConfig.foldersRequested config)),
      (default false (ResourceRequestConfig.filesRequested config)).
  - by exists cwd, children1, children2.
Qed.

(** Every completion that [_resolveResources] returns is a file or a
    folder with the two flags set accordingly, has no detail, has a
    label that starts with a dot, replaces from the start of the last
    word, and replaces as many characters as its label has. *)
Theorem resolved_resource_shape
    (svc : TerminalCompletionService) (config : TerminalResourceRequestConfig)
    (promptValue : string) (cursorPosition : Z) (result : list Completion.t)
    (c : Completion.t) :
  _resolveResources svc config promptValue cursorPosition = Some result ->
  c ∈ result ->
  Completion.detail c = None
  /\ ((Completion.kind c = Some File
       /\ Completion.isFile c = Some true /\ Completion.isDirectory c = Some false)
      \/ (Completion.kind c = Some Folder
          /\ Completion.isFile c = Some false /\ Completion.isDirectory c = Some true))
  /\ (exists rest, Completion.label c = "." +:+ rest)
  /\ Completion.replacementIndex c
     = (cursorPosition
        - Z.of_nat (String.length (lastWordOf promptValue cursorPosition)))%Z
  /\ Completion.replacementLength c = Z.of_nat (String.length (Completion.label c)).
Proof.
  intros Hres Hin.
  destruct (resolved_resources_shape_aux _ _ _ _ _ Hres c Hin)
    as (prefix & stat & kind & Hprefix & Hkind & ->).
  simpl. split_and!; try done.
  - destruct Hkind as [-> | ->]; [left|right]; done.
  - destruct Hprefix as [-> | ->]; eexists; reflexivity.
Qed.
End resources.

Lemma resolved_resources_come_from_both_listings_witness :
  let svc := newService true false homeOfU in
  let config := requestAll (fileUri 0 "/home/u") in
  exists result,
    @_resolveResources posixUri svc config "cd " 3 = Some result
    /\ result <> []
    /\ (default false (ResourceRequestConfig.foldersRequested config)
        || default false (ResourceRequestConfig.filesRequested config)) = true
    /\ exists cwd children1 children2,
         ResourceRequestConfig.cwd config = Some cwd
         /\ childrenOf (_fileService svc) cwd = Some children1
         /\ childrenOf (_fileService svc)
              (@parentCwd posixUri cwd (ResourceRequestConfig.pathSeparator config))
            = Some children2
         /\ result
            = childCompletions
                (default false (ResourceRequestConfig.foldersRequested config))
                (default false (ResourceRequestConfig.filesRequested config))
                cwd 3 (lastWordOf "cd " 3) "." children1
              ++ childCompletions
                   (default false (ResourceRequestConfig.foldersRequested config))
                   (default false (ResourceRequestConfig.filesRequested config))
                   cwd 3 (lastWordOf "cd " 3) ".." children2.
Proof.
  eexists. split; [reflexivity|].
  apply (@resolved_resources_come_from_both_listings posixUri
           (newService true false homeOfU) (requestAll (fileUri 0 "/home/u"))
           "cd " 3%Z).
  reflexivity.
Defined.

Lemma resolved_resource_shape_witness :
  let c := Completion.mk "./proj" None (Some Folder) (Some true) (Some false) 3 6 in
  exists result,
    @_resolveResources posixUri (newService true false homeOfU)
       (requestAll (fileUri 0 "/home/u")) "cd " 3 = Some result
    /\ c ∈ result
    /\ Completion.detail c = None
    /\ ((Completion.kind c = Some File
         /\ Completion.isFile c = Some true /\ Completion.isDirectory c = Some false)
        \/ (Completion.kind c = Some Folder
            /\ Completion.isFile c = Some false
            /\ Completion.isDirectory c = Some true))
    /\ (exists rest, Completion.label c = "." +:+ rest)
    /\ Completion.replacementIndex c
       = (3 - Z.of_nat (String.length (lastWordOf "cd " 3)))%Z
    /\ Completion.replacementLength c
       = Z.of_nat (String.length (Completion.label c)).
Proof.
  eexists. split; [reflexivity|]. split; [apply elem_of_cons; by left|].
  apply (@resolved_resource_shape posixUri (newService true false homeOfU)
           (requestAll (fileUri 0 "/home/u")) "cd " 3%Z _ _ eq_refl).
  apply elem_of_cons. by left.
Defined.

(** ** The labels of the completions for files and folders *)

Section labels.
Context `{URI.Impl}.
Import JsString JsStringFacts JsSplitFacts.

Lemma elem_of_childCompletions_intro (folders files : bool) (cwd : URI.t)
    (cursorPosition : Z) (lastWord prefix : string) (children : list IFileStat)
    (stat : IFileStat) (kind : TerminalCompletionItemKind) :
  stat ∈ children ->
  kindOfStat folders files stat = Some kind ->
  Completion.mk
    (prefix +:+ replaceFirst (URI.fsPath (Stat.resource stat)) (URI.fsPath cwd))
    None (Some kind) (Some (isKind kind Folder)) (Some (isKind kind File))
    (cursorPosition - Z.of_nat (String.length lastWord))%Z
    (Z.of_nat
       (String.length
          (prefix +:+ replaceFirst (URI.fsPath (Stat.resource stat)) (URI.fsPath cwd))))
  ∈ childCompletions folders files cwd cursorPosition lastWord prefix children.
Proof.
  intros Hin Hkind. unfold childCompletions. apply list_elem_of_omap.
  exists stat. split; [done|]. by rewrite Hkind.
Qed.

(** When the working directory and its parent can both be listed, every
    child of either that is of a requested kind gets a completion of
    that kind. Its label is [.] for a child of the working directory and
    [..] for a child of the parent, followed by the path of the child
    from which the first occurrence of the path of the working directory
    is removed: what follows that path, when the child's path starts
    with it, and the whole path of the child, when it does not contain
    it. *)
Theorem wanted_child_gets_a_completion
    (svc : TerminalCompletionService) (config : TerminalResourceRequestConfig)
    (promptValue : string) (cursorPosition : Z) (cwd : URI.t)
    (children1 children2 : list IFileStat) (prefix : string) (stat : IFileStat)
    (kind : TerminalCompletionItemKind) :
  ResourceRequestConfig.cwd config = Some cwd ->
  childrenOf (_fileService svc) cwd = Some children1 ->
  childrenOf (_fileService svc)
    (parentCwd cwd (ResourceRequestConfig.pathSeparator config)) = Some children2 ->
  (stat ∈ children1 /\ prefix = ".") \/ (stat ∈ children2 /\ prefix = "..") ->
  kindOfStat (default false (ResourceRequestConfig.foldersRequested config))
             (default false (ResourceRequestConfig.filesRequested config)) stat
  = Some kind ->
  exists result c,
    _resolveResources svc config promptValue cursorPosition = Some result
    /\ c ∈ result
    /\ Completion.kind c = Some kind
    /\ (forall rest,
          URI.fsPath (Stat.resource stat) = URI.fsPath cwd +:+ rest ->
          Completion.label c = prefix +:+ rest)
    /\ (includes (URI.fsPath (Stat.resource stat)) (URI.fsPath cwd) = false ->
        Completion.label c = prefix +:+ URI.fsPath (Stat.resource stat)).
Proof.
  intros Hcwd H1 H2 Hstat Hkind.
  set (folders := default false (ResourceRequestConfig.foldersRequested config)) in *.
  set (files := default false (ResourceRequestConfig.filesRequested config)) in *.
  set (c := Completion.mk
    (prefix +:+ replaceFirst (URI.fsPath (Stat.resource stat)) (URI.fsPath cwd))
    None (Some kind) (Some (isKind kind Folder)) (Some (isKind kind File))
    (cursorPosition
     - Z.of_nat (String.length (lastWordOf promptValue cursorPosition)))%Z
    (Z.of_nat
       (String.length
          (prefix
           +:+ replaceFirst (URI.fsPath (Stat.resource stat)) (URI.fsPath cwd))))).
  set (result :=
    childCompletions folders files cwd cursorPosition
      (lastWordOf promptValue cursorPosition) "." children1
    ++ childCompletions folders files cwd cursorPosition
         (lastWordOf promptValue cursorPosition) ".." children2).
  assert (Hc : c ∈ result).
  { apply elem_of_app.
    destruct Hstat as [[Hin ->] | [Hin ->]]; [left|right];
      by apply elem_of_childCompletions_intro. }
  exists result, c. split_and!; try done.
  - unfold _resolveResources, URI.revive. rewrite Hcwd.
    fold folders files.
    assert (negb folders && negb files = false) as ->.
    { revert Hkind. unfold kindOfStat. by destruct folders, files. }
    rewrite dirToPrefixMap_entries, resolveDirs_cons, H1, resolveDirs_cons, H2.
    simpl. fold result. destruct result; [|done]. by apply elem_of_nil in Hc.
  - intros rest Hrest. simpl. by rewrite Hrest, replaceFirst_prefix.
  - intros Habs. simpl. by rewrite replaceFirst_absent.
Qed.
End labels.

Lemma wanted_child_gets_a_completion_witness :
  let svc := newService true false homeWithTwo in
  let config := requestAll (fileUri 0 "/home/u") in
  let stat := FileStat (fileUri 9 "/home/v") true false None in
  exists result c,
    @_resolveResources posixUri svc config "cd " 3 = Some result
    /\ c ∈ result
    /\ Completion.kind c = Some Folder
    /\ (forall rest,
          URI.fsPath (Stat.resource stat)
          = URI.fsPath (fileUri 0 "/home/u") +:+ rest ->
          Completion.label c = ".." +:+ rest)
    /\ (JsString.includes (URI.fsPath (Stat.resource stat))
          (URI.fsPath (fileUri 0 "/home/u")) = false ->
        Completion.label c = ".." +:+ URI.fsPath (Stat.resource stat)).
Proof.
  apply (@wanted_child_gets_a_completion posixUri
           (newService true false homeWithTwo) (requestAll (fileUri 0 "/home/u"))
           "cd " 3%Z (fileUri 0 "/home/u") []
           [FileStat (fileUri 8 "/home/u") true false None;
            FileStat (fileUri 9 "/home/v") true false None]
           ".." (FileStat (fileUri 9 "/home/v") true false None) Folder).
  - reflexivity.
  - reflexivity.
  - reflexivity.
  - right. split; [|reflexivity]. apply elem_of_cons. right.
    apply elem_of_cons. by left.
  - reflexivity.
Defined.

(** ** Requests as a whole *)

Section requests_more.
Context `{URI.Impl}.
Context (svc : TerminalCompletionService) (shellType : TerminalShellType)
        (promptValue : string) (cursorPosition : Z) (token : CancellationToken).
Import JsString JsStringFacts.

Local Abbreviation run := (completionPromise svc shellType promptValue cursorPosition token).
Local Abbreviation state := (promiseState svc shellType promptValue cursorPosition token).
Local Abbreviation tasks := (tasksOf svc shellType promptValue cursorPosition token).
Local Abbreviation settled := (settledIn svc shellType promptValue cursorPosition token).

Lemma setDetail_setDetail (d d' : string) (c : Completion.t) :
  Completion.setDetail d' (Completion.setDetail d c) = Completion.setDetail d' c.
Proof. reflexivity. Qed.

Lemma detailPrepended_trans (c1 c2 c3 : Completion.t) :
  detailPrepended c1 c2 -> detailPrepended c2 c3 -> detailPrepended c1 c3.
Proof.
  intros [->|[t1 ->]] [->|[t2 ->]].
  - by left.
  - right. by exists t2.
  - right. by exists t1.
  - right. exists (t2 +:+ t1). rewrite setDetail_setDetail. simpl.
    by rewrite app_assoc.
Qed.

Lemma detailPrepended_modifyLabel (dev : bool) (providerId : string)
    (c : Completion.t) :
  detailPrepended c (modifyLabel dev providerId c).
Proof.
  unfold modifyLabel. destruct (dev && _); [|by left].
  right. exists ("(" +:+ providerId +:+ ") "). by rewrite !app_assoc.
Qed.

Lemma sameItemsUpToDetail_refl (h : Heap) : sameItemsUpToDetail h h.
Proof. intros r. destruct (h !! r); [by left|done]. Qed.

Lemma sameItemsUpToDetail_trans (h1 h2 h3 : Heap) :
  sameItemsUpToDetail h1 h2 -> sameItemsUpToDetail h2 h3 ->
  sameItemsUpToDetail h1 h3.
Proof.
  intros H12 H23 r. specialize (H12 r). specialize (H23 r).
  destruct (h1 !! r), (h2 !! r), (h3 !! r); try done.
  by eapply detailPrepended_trans.
Qed.

Lemma sameItemsUpToDetail_length (h h' : Heap) :
  sameItemsUpToDetail h h' -> length h' = length h.
Proof.
  intros Hsame.
  destruct (Nat.lt_trichotomy (length h') (length h)) as [Hlt|[->|Hlt]]; [|done|].
  - specialize (Hsame (length h')).
    destruct (lookup_lt_is_Some_2 h (length h') Hlt) as [c Hc].
    rewrite Hc, (lookup_ge_None_2 h' (length h')) in Hsame by lia. done.
  - specialize (Hsame (length h)).
    destruct (lookup_lt_is_Some_2 h' (length h) Hlt) as [c Hc].
    rewrite Hc, (lookup_ge_None_2 h (length h)) in Hsame by lia. done.
Qed.

Lemma run_sameItemsUpToDetail (p : ITerminalCompletionProvider) (h : Heap) :
  sameItemsUpToDetail h (run p h).1.
Proof.
  intros r. rewrite run_lookup. destruct (h !! r) as [c|]; [|done]. simpl.
  unfold touch. destruct (bool_decide _); [|by left].
  apply detailPrepended_modifyLabel.
Qed.

Lemma settleAll_sameItemsUpToDetail (n : nat) (schedule : list nat)
    (ips : list (nat * ITerminalCompletionProvider)) (h : Heap) :
  length ips = n ->
  sameItemsUpToDetail h (settleAll n schedule (tasks ips) h).1.
Proof.
  revert schedule ips h. induction n as [|n IH]; intros schedule ips h Hlen.
  - destruct ips; [|done]. apply sameItemsUpToDetail_refl.
  - destruct (settleAll_tasks_S svc shellType promptValue cursorPosition token n schedule ips h Hlen)
      as (k & ip & Hk & ->).
    simpl. eapply sameItemsUpToDetail_trans; [apply run_sameItemsUpToDetail|].
    apply IH. rewrite length_delete by (by eexists). lia.
Qed.

Lemma settled_dev_off (p : ITerminalCompletionProvider) (h : Heap) :
  devMode (_configurationService svc) = false -> settled p h.
Proof.
  intros Hdev. unfold settledIn.
  destruct (labelling _ _ _ _ _) as [[providerId items]|]; [|done].
  intros r c _ _. unfold labelled. by rewrite Hdev.
Qed.

(** A request never adds an item to the store nor removes one, and in an
    item it changes nothing but the detail, before which it can only put
    text: whatever the providers, the order in which their promises end
    and the outcome. With dev mode off it leaves the store as it is. *)
Theorem request_only_prepends_to_details
    (store : ProviderStore) (schedule : list nat) (triggerCharacter : bool)
    (h : Heap) :
  let h' :=
    (provideCompletions store svc schedule promptValue cursorPosition shellType
       token triggerCharacter h).1 in
  length h' = length h
  /\ (forall r c,
        h !! r = Some c ->
        exists c', h' !! r = Some c' /\ detailPrepended c c')
  /\ (devMode (_configurationService svc) = false -> h' = h).
Proof.
  unfold provideCompletions. simpl. rewrite collectCompletions_heap.
  set (ps := candidates store svc promptValue cursorPosition triggerCharacter).
  assert (Hsame :
    sameItemsUpToDetail h
      (settleAll (length ps) schedule (tasks (imap (fun i p => (i, p)) ps)) h).1).
  { apply settleAll_sameItemsUpToDetail. by rewrite length_imap. }
  split_and!.
  - by apply sameItemsUpToDetail_length.
  - intros r c Hr. specialize (Hsame r). rewrite Hr in Hsame.
    destruct (_ !! r) as [c'|]; [|done]. by exists c'.
  - intros Hdev. apply settleAll_settled; [by rewrite length_imap|].
    intros ip _. by apply settled_dev_off.
Qed.

(** After a request in dev mode, every item in the answer of a candidate
    that was invoked has a detail that contains the id of that
    candidate: also when several candidates answer with the same item,
    in whatever order their promises end. *)
Theorem dev_mode_request_labels_every_item
    (store : ProviderStore) (schedule : list nat) (triggerCharacter : bool)
    (h : Heap) (p : ITerminalCompletionProvider) (r : ItemRef) (c : Completion.t) :
  devMode (_configurationService svc) = true ->
  p ∈ candidates store svc promptValue cursorPosition triggerCharacter ->
  r ∈ labelledItems shellType promptValue cursorPosition token p ->
  (provideCompletions store svc schedule promptValue cursorPosition shellType
     token triggerCharacter h).1 !! r = Some c ->
  exists before after,
    Completion.detail c = Some (before +:+ Provider.id p +:+ after).
Proof.
  intros Hdev Hp Hr. unfold provideCompletions. rewrite collectCompletions_heap.
  set (ps := candidates store svc promptValue cursorPosition triggerCharacter) in *.
  intros Hc.
  destruct (settleAll_settles svc shellType promptValue cursorPosition token (length ps) schedule
              (imap (fun i p => (i, p)) ps) h) as [Hall _];
    [by rewrite length_imap|].
  apply list_elem_of_lookup in Hp as [i Hi].
  specialize (Hall (i, p)). simpl in Hall.
  assert (Hin : (i, p) ∈ imap (fun i p => (i, p)) ps).
  { apply list_elem_of_lookup. exists i. by rewrite list_lookup_imap, Hi. }
  specialize (Hall Hin). unfold settledIn in Hall.
  revert Hr Hall. unfold labelledItems, labelling.
  destruct (excludesShell p shellType); [by intros ?%elem_of_nil|].
  destruct (Provider.provideCompletions p _ _ _) as [|[completions|]|];
    try by intros ?%elem_of_nil.
  intros Hr Hall. specialize (Hall r c Hr Hc).
  unfold labelled in Hall. rewrite Hdev in Hall. simpl in Hall.
  unfold detailIncludes in Hall.
  destruct (Completion.detail c) as [d|]; [|done].
  apply includes_spec in Hall as (before & after & ->). by exists before, after.
Qed.
End requests_more.

Lemma dev_mode_request_labels_every_item_witness :
  let '(store, svc) := twoOnOneItem in
  exists c before after,
    (@provideCompletions posixUri store svc [1] "g" 1 "bash" false false
       [item "status" None]).1 !! 0 = Some c
    /\ Completion.detail c = Some (before +:+ "one" +:+ after).
Proof.
  eexists. 
  destruct (@dev_mode_request_labels_every_item posixUri twoOnOneItem.2 "bash" "g"
              1%Z false twoOnOneItem.1 [1] false [item "status" None]
              (Provider.stamp [] "one" (arrayProvider [0])) 0
              (item "status" (Some "(one) (two) ")))
    as (before & after & Hd).
  - reflexivity.
  - apply elem_of_cons. by left.
  - apply elem_of_cons. by left.
  - reflexivity.
  - exists before, after. split; [reflexivity|exact Hd].
Defined.

(** ** What a request returns *)

Section results_more.
Context `{URI.Impl}.
Context (svc : TerminalCompletionService) (shellType : TerminalShellType)
        (promptValue : string) (cursorPosition : Z) (token : CancellationToken).
Import JsString JsStringFacts.

Lemma existsb_false_elem {A : Type} (f : A -> bool) (l : list A) :
  existsb f l = false <-> forall x, x ∈ l -> f x = false.
Proof.
  induction l as [|y l IH]; simpl.
  - split; [by intros _ x ?%elem_of_nil|done].
  - rewrite orb_false_iff, IH. split.
    + intros [Hy Hl] x [->|Hin]%elem_of_cons; [done|by apply Hl].
    + intros Hall. split; [apply Hall, elem_of_cons; by left|].
      intros x Hin. apply Hall, elem_of_cons. by right.
Qed.

Lemma collected_Fulfilled (ps : list ITerminalCompletionProvider)
    (handles : list Handle) :
  collected (map (promiseState svc shellType promptValue cursorPosition token) ps)
  = Fulfilled handles ->
  existsb (fails shellType promptValue cursorPosition token) ps = false
  /\ existsb (hangs shellType promptValue cursorPosition token) ps = false
  /\ handles
     = flat_map (contribution svc shellType promptValue cursorPosition token) ps.
Proof.
  rewrite collected_cases.
  destruct (existsb (fails _ _ _ _) ps); [done|].
  destruct (existsb (hangs _ _ _ _) ps); [done|].
  by intros [= <-].
Qed.

Lemma elem_of_flat_map {A B : Type} (f : A -> list B) (l : list A) (y : B) :
  y ∈ flat_map f l <-> exists x, x ∈ l /\ y ∈ f x.
Proof.
  rewrite list_elem_of_In, in_flat_map. split; intros (x & Hx & Hy); exists x.
  - by rewrite !list_elem_of_In.
  - by rewrite <- !list_elem_of_In.
Qed.

(** Where the completions of a result come from. A completion of the
    store is in the answer of a candidate that was invoked. Any other
    completion is a file or a folder made by [_resolveResources] for a
    candidate whose completion list asked for them; it has no detail:
    the labelling of dev mode does not reach it. *)
Theorem result_handles_origin
    (store : ProviderStore) (schedule : list nat) (triggerCharacter : bool)
    (h : Heap) (handles : list Handle) (x : Handle) :
  (provideCompletions store svc schedule promptValue cursorPosition shellType
     token triggerCharacter h).2 = Fulfilled handles ->
  x ∈ handles ->
  exists p,
    p ∈ candidates store svc promptValue cursorPosition triggerCharacter
    /\ excludesShell p shellType = false
    /\ match x with
       | Ref r => r ∈ labelledItems shellType promptValue cursorPosition token p
       | New c =>
           Completion.detail c = None
           /\ (Completion.kind c = Some File \/ Completion.kind c = Some Folder)
           /\ exists items config result,
                Provider.provideCompletions p promptValue cursorPosition token
                = Fulfilled (Some (TerminalCompletionList items (Some config)))
                /\ _resolveResources svc config promptValue cursorPosition
                   = Some result
                /\ c ∈ result
       end.
Proof.
  unfold provideCompletions. rewrite collectCompletions_result.
  intros (_ & _ & ->)%collected_Fulfilled (p & Hp & Hx)%elem_of_flat_map.
  exists p. split; [done|]. revert Hx.
  unfold contribution, labelledItems, labelling.
  destruct (excludesShell p shellType); [by intros ?%elem_of_nil|].
  split; [done|]. revert Hx.
  destruct (Provider.provideCompletions p _ _ _) as [|[[items|items [config|]]|]|];
    try by intros ?%elem_of_nil.
  - intros (y & -> & Hy)%list_elem_of_fmap. done.
  - intros [Hx|Hx]%elem_of_app.
    + apply list_elem_of_fmap in Hx as (y & -> & Hy). done.
    + apply list_elem_of_fmap in Hx as (c & -> & Hc).
      destruct (_resolveResources svc config promptValue cursorPosition)
        as [result|] eqn:Hres; [|by apply elem_of_nil in Hc].
      simpl in Hc.
      destruct (resolved_resources_shape_aux _ _ _ _ _ Hres c Hc)
        as (prefix & stat & kind & _ & Hkind & ->).
      simpl. split_and!; [done| |by exists items, config, result].
      destruct Hkind as [-> | ->]; [by left|by right].
Qed.

Lemma sublist_filter_bool {A : Type} (f : A -> bool) (l : list A) :
  List.filter f l `sublist_of` l.
Proof.
  induction l as [|x l IH]; [done|]. simpl.
  destruct (f x); [by apply sublist_skip|by apply sublist_cons].
Qed.

Lemma filter_bool_sublist {A : Type} (f : A -> bool) (l1 l2 : list A) :
  l1 `sublist_of` l2 -> List.filter f l1 `sublist_of` List.filter f l2.
Proof.
  induction 1 as [|x l1 l2 _ IH|x l1 l2 _ IH]; [done| |]; simpl.
  - destruct (f x); [by apply sublist_skip|done].
  - destruct (f x); [by apply sublist_cons|done].
Qed.

Lemma flat_map_sublist {A B : Type} (f : A -> list B) (l1 l2 : list A) :
  l1 `sublist_of` l2 -> flat_map f l1 `sublist_of` flat_map f l2.
Proof.
  induction 1 as [|x l1 l2 _ IH|x l1 l2 _ IH]; [done| |]; simpl.
  - by apply sublist_app.
  - by apply sublist_inserts_l.
Qed.

Lemma existsb_sublist {A : Type} (f : A -> bool) (l1 l2 : list A) :
  l1 `sublist_of` l2 -> existsb f l2 = false -> existsb f l1 = false.
Proof.
  induction 1 as [|x l1 l2 _ IH|x l1 l2 _ IH]; [done| |]; simpl.
  - intros [-> Hl]%orb_false_iff. by apply IH.
  - intros [_ Hl]%orb_false_iff. by apply IH.
Qed.

Lemma candidates_trigger_sublist (store : ProviderStore) :
  candidates store svc promptValue cursorPosition true
  `sublist_of` candidates store svc promptValue cursorPosition false.
Proof.
  unfold candidates, providersToRequest.
  destruct (negb _).
  - apply filter_bool_sublist, sublist_filter_bool.
  - apply sublist_filter_bool.
Qed.

(** When the request without the trigger-character flag returns a
    result, so does the request with the flag, and what it returns is
    part of that result, in the same order: with the flag, providers are
    left out and nothing else changes. *)
Theorem trigger_request_returns_part_of_full_request
    (store : ProviderStore) (schedule schedule' : list nat) (h h' : Heap)
    (handles : list Handle) :
  (provideCompletions store svc schedule promptValue cursorPosition shellType
     token false h).2 = Fulfilled handles ->
  exists part,
    (provideCompletions store svc schedule' promptValue cursorPosition shellType
       token true h').2 = Fulfilled part
    /\ part `sublist_of` handles.
Proof.
  unfold provideCompletions. rewrite !collectCompletions_result.
  intros (Hfails & Hhangs & ->)%collected_Fulfilled.
  pose proof (candidates_trigger_sublist store) as Hsub.
  rewrite collected_cases.
  rewrite (existsb_sublist _ _ _ Hsub Hfails), (existsb_sublist _ _ _ Hsub Hhangs).
  eexists. split; [done|]. by apply flat_map_sublist.
Qed.

(** With extension completions disabled and no registered provider
    flagged as built in, no provider is invoked: the request returns the
    empty list and leaves the store as it is, whatever the providers
    would have done. *)
Theorem extension_providers_are_not_asked
    (store : ProviderStore) (schedule : list nat) (triggerCharacter : bool)
    (h : Heap) :
  enableExtensionCompletions (_configurationService svc) = false ->
  (forall p, p ∈ providers store svc -> default false (Provider.isBuiltin p) = false) ->
  provideCompletions store svc schedule promptValue cursorPosition shellType
    token triggerCharacter h
  = (h, Fulfilled []).
Proof.
  intros Hext Hnone. unfold provideCompletions.
  assert (candidates store svc promptValue cursorPosition triggerCharacter = [])
    as ->; [|done].
  unfold candidates. rewrite Hext. simpl.
  set (ps := if triggerCharacter then _ else _).
  assert (Hps : forall p, p ∈ ps -> p ∈ providers store svc).
  { intros p. subst ps. destruct triggerCharacter; [|done].
    unfold providersToRequest. by intros [? _]%elem_of_filter_bool. }
  clearbody ps. induction ps as [|p ps IH]; [done|]. simpl.
  unfold isBuiltinTruthy at 1.
  rewrite Hnone by (apply Hps, elem_of_cons; by left).
  apply IH. intros q Hq. apply Hps, elem_of_cons. by right.
Qed.
End results_more.

Lemma result_handles_origin_witness :
  let '(store, svc) := withFilesProvider true in
  let x := New (Completion.mk "./proj" None (Some Folder) (Some true) (Some false)
                  3 6) in
  exists handles p,
    (@provideCompletions posixUri store svc [] "cd src/" 7 "bash" false true
       [item "src" None]).2 = Fulfilled handles
    /\ x ∈ handles
    /\ p ∈ candidates store svc "cd src/" 7 true
    /\ excludesShell p "bash" = false
    /\ match x with
       | Ref r => r ∈ labelledItems "bash" "cd src/" 7 false p
       | New c =>
           Completion.detail c = None
           /\ (Completion.kind c = Some File \/ Completion.kind c = Some Folder)
           /\ exists items config result,
                Provider.provideCompletions p "cd src/" 7 false
                = Fulfilled (Some (TerminalCompletionList items (Some config)))
                /\ @_resolveResources posixUri svc config "cd src/" 7 = Some result
                /\ c ∈ result
       end.
Proof.
  eexists.
  destruct (@result_handles_origin posixUri (withFilesProvider true).2 "bash"
              "cd src/" 7%Z false (withFilesProvider true).1 [] true
              [item "src" None] _
              (New (Completion.mk "./proj" None (Some Folder) (Some true)
                      (Some false) 3 6))
              eq_refl) as (p & Hp).
  - apply elem_of_cons. right. apply elem_of_cons. by left.
  - exists p. split; [reflexivity|]. split; [|exact Hp].
    apply elem_of_cons. right. apply elem_of_cons. by left.
Defined.

Lemma trigger_request_returns_part_of_full_request_witness :
  let '(store, svc) := withFilesProvider true in
  exists handles part,
    (@provideCompletions posixUri store svc [] "cd src" 6 "bash" false false
       [item "src" None]).2 = Fulfilled handles
    /\ (@provideCompletions posixUri store svc [] "cd src" 6 "bash" false true
          [item "src" None]).2 = Fulfilled part
    /\ part `sublist_of` handles.
Proof.
  eexists.
  destruct (@trigger_request_returns_part_of_full_request posixUri
              (withFilesProvider true).2 "bash" "cd src" 6%Z false
              (withFilesProvider true).1 [] [] [item "src" None]
              [item "src" None] _ eq_refl) as (part & Hpart).
  exists part. split; [reflexivity|exact Hpart].
Defined.

Lemma extension_providers_are_not_asked_witness :
  let '(store, svc, _) :=
    registerTerminalCompletionProvider "ext" "one" 0 [] [throwingProvider]
      (newService false false noFiles) in
  @provideCompletions posixUri store svc [] "g" 1 "bash" false false
    [item "status" None]
  = ([item "status" None], Fulfilled []).
Proof.
  apply (@extension_providers_are_not_asked posixUri
           (registerTerminalCompletionProvider "ext" "one" 0 [] [throwingProvider]
              (newService false false noFiles)).1.2
           "bash" "g" 1%Z false
           (registerTerminalCompletionProvider "ext" "one" 0 [] [throwingProvider]
              (newService false false noFiles)).1.1
           [] false [item "status" None]).
  - reflexivity.
  - intros p [->|[]%elem_of_nil]%elem_of_cons. reflexivity.
Defined.
